(** * react-eventizer: the Eventizer event bus and its React context binding

    A shallow embedding of [src/Eventizer.ts] and of the [useEventizer]
    hook of [src/EventizerContext.tsx], with the properties of the
    dispatcher stated and proved over it.

    Modelling decisions.
    - The private field [subscribers] is a JavaScript object, created as
      [{}], that the class uses as a map from event name to an array of
      callbacks.  Its own properties are a [gmap string (list listener)].
      The class reads it with [this.subscribers[event]], a property lookup
      that falls back on [Object.prototype] when the object has no own
      property of that name: [get] models that lookup, and the members of
      [Object.prototype] are tabulated in [Object_prototype].
    - A callback is a function reference.  The code compares callbacks with
      [!==], reference identity, so a listener is represented by the
      identity of its reference, a natural number.
    - What a callback does when it is called is a parameter of the
      development ([call]): given the payload and the bus it may change the
      bus through the public methods (re-entrancy) and it completes either
      normally or by throwing.
    - A method call yields the state of the bus after the call and the way
      the call completed: normally, or by throwing the [TypeError] of the
      runtime for a call of something that is not a function.  [emit]
      yields, next to the final bus, the trace of the invocations its loop
      made and what it wrote with [console.error]. *)

From Stdlib Require Import ZArith.
From stdpp Require Import gmap strings list fin_maps.

Local Open Scope Z_scope.

(** ** The data model *)

(** A callback reference. *)
Abbreviation listener := nat.

(** [class Eventizer]: its only field is [subscribers]; the map holds the
    own properties of that object. *)
Record Eventizer := { subscribers : gmap string (list listener) }.

(** [private subscribers = {}]: the state of a freshly constructed bus. *)
Definition new_Eventizer : Eventizer := {| subscribers := ∅ |}.

(** The callbacks registered for an event, the empty list when the key is
    absent.  This is a notion of the specification, used in the statements. *)
Definition listeners (this : Eventizer) (event : string) : list listener :=
  default [] (subscribers this !! event).

(** ** Property lookup *)

(** The members of [Object.prototype] in ECMAScript (with the accessors of
    its Annex B), each with the value of its [length] property: the arity
    for the functions, none for [__proto__], whose getter yields an object
    that has no [length]. *)
Definition Object_prototype_members : list (string * option Z) :=
  [("constructor", Some 1); ("hasOwnProperty", Some 1);
   ("isPrototypeOf", Some 1); ("propertyIsEnumerable", Some 1);
   ("toLocaleString", Some 0); ("toString", Some 0); ("valueOf", Some 0);
   ("__defineGetter__", Some 2); ("__defineSetter__", Some 2);
   ("__lookupGetter__", Some 1); ("__lookupSetter__", Some 1);
   ("__proto__", None)].

(** The [length] of the member of [Object.prototype] of that name, when
    there is such a member. *)
Definition Object_prototype (name : string) : option (option Z) :=
  (list_to_map Object_prototype_members : gmap string (option Z)) !! name.

(** What a lookup [this.subscribers[event]] can find: an array of callbacks
    bound by the class, or a member inherited from [Object.prototype], which
    is truthy, is not an array and has none of [push], [filter], [forEach]. *)
Inductive property : Type :=
  | Array (a : list listener)
  | Member (len : option Z).

(** [this.subscribers[event]]: the own property first, then the prototype;
    [None] is [undefined]. *)
Definition get (this : Eventizer) (event : string) : option property :=
  match subscribers this !! event with
  | Some a => Some (Array a)
  | None => Member <$> Object_prototype event
  end.

(** [p.length], [None] for [undefined]. *)
Definition length_of (p : property) : option Z :=
  match p with
  | Array a => Some (Z.of_nat (length a))
  | Member len => len
  end.

(** ** Completions *)

(** The error the runtime throws when the callee of a call is not a
    function. *)
Inductive runtime_error : Type := TypeError.

(** How a call completes; [V] is the type of the values it may throw. *)
Inductive completion (V : Type) : Type :=
  | Normal
  | Throw (error : V).
Arguments Normal {V}.
Arguments Throw {V} error.

(** ** The methods that do not call listeners *)

(** [off(event, callback)].  The guard returns when the lookup is falsy,
    that is [undefined].  [filter] builds a new array which replaces the
    old one under the key; the call of [filter] throws when the lookup
    found an inherited member.  The key is deleted when the [length] read
    back is [0]. *)
Definition off (this : Eventizer) (event : string) (callback : listener)
  : Eventizer * completion runtime_error :=
  match get this event with
  | None => (this, Normal)
  | Some (Member _) => (this, Throw TypeError)
  | Some (Array a) =>
      let this' :=
        {| subscribers :=
             <[event := filter (λ cb, cb ≠ callback) a]> (subscribers this) |} in
      match get this' event ≫= length_of with
      | Some n =>
          if n =? 0
          then ({| subscribers := delete event (subscribers this') |}, Normal)
          else (this', Normal)
      | None => (this', Normal)
      end
  end.

(** [on(event, callback)].  When the lookup is falsy the key is first bound
    to the empty array; an array is truthy, also when empty, and so is an
    inherited member.  Then the callback is pushed at the end of what the
    lookup finds: the call of [push] throws when that is an inherited
    member.  On a normal return the result carries the closure
    [() => this.off(event, callback)], which acts on the state the bus has
    when the closure is invoked. *)
Definition on (this : Eventizer) (event : string) (callback : listener)
  : Eventizer
    * (runtime_error + (Eventizer → Eventizer * completion runtime_error)) :=
  let this1 :=
    match get this event with
    | None => {| subscribers := <[event := []]> (subscribers this) |}
    | Some _ => this
    end in
  match get this1 event with
  | Some (Array a) =>
      ({| subscribers := <[event := a ++ [callback]]> (subscribers this1) |},
       inr (λ this', off this' event callback))
  | _ => (this1, inl TypeError)
  end.

(** [subscriberCount(event)]: [this.subscribers[event]?.length || 0]. *)
Definition subscriberCount (this : Eventizer) (event : string) : Z :=
  match get this event ≫= length_of with
  | Some n => if n =? 0 then 0 else n
  | None => 0
  end.

(** [clearEvent(event)]: [delete this.subscribers[event]], which removes an
    own property and nothing else. *)
Definition clearEvent (this : Eventizer) (event : string) : Eventizer :=
  {| subscribers := delete event (subscribers this) |}.

(** [clearAll()]: [this.subscribers = {}]. *)
Definition clearAll (this : Eventizer) : Eventizer :=
  {| subscribers := ∅ |}.

(** The invariant of the data model: a key that is present holds a
    non-empty array. *)
Definition no_empty_entry (this : Eventizer) : Prop :=
  ∀ event a, subscribers this !! event = Some a → a ≠ [].

(** No own key has the name of a member of [Object.prototype]. *)
Definition own_keys_plain (this : Eventizer) : Prop :=
  ∀ event a, subscribers this !! event = Some a → Object_prototype event = None.

(** The lookup of [event] finds a member of [Object.prototype]: the bus has
    no own key of that name and the prototype has a member of that name. *)
Definition inherited_at (this : Eventizer) (event : string) : Prop :=
  subscribers this !! event = None ∧ is_Some (Object_prototype event).

#[global] Instance inherited_at_dec (this : Eventizer) (event : string)
  : Decision (inherited_at this event).
Proof. unfold inherited_at. apply _. Defined.

(** ** Histories of mutating calls *)

(** One call of a mutating method.  A call of a closure returned by [on] is
    the [Off] call it performs. *)
Inductive op : Type :=
  | On (event : string) (callback : listener)
  | Off (event : string) (callback : listener)
  | ClearEvent (event : string)
  | ClearAll.

(** The state after the call, whether it returned or threw. *)
Definition step (this : Eventizer) (o : op) : Eventizer :=
  match o with
  | On event callback => (on this event callback).1
  | Off event callback => (off this event callback).1
  | ClearEvent event => clearEvent this event
  | ClearAll => clearAll this
  end.

(** The bus after a history of calls on a fresh instance. *)
Definition run (ops : list op) : Eventizer := foldl step new_Eventizer ops.

(** The specification's reading of a history: the registrations that are
    active, in the order they were made.  A registration is made by [on];
    [off] ends every registration of that callback for that event,
    [clearEvent] every registration for the event, [clearAll] all of them. *)
Definition active_step (r : list (string * listener)) (o : op)
  : list (string * listener) :=
  match o with
  | On event callback => r ++ [(event, callback)]
  | Off event callback => filter (λ x, x ≠ (event, callback)) r
  | ClearEvent event => filter (λ x, x.1 ≠ event) r
  | ClearAll => []
  end.

Definition active_registrations (ops : list op) : list (string * listener) :=
  foldl active_step [] ops.

(** The registrations of [r] for one event, as the callbacks in order. *)
Definition registered_for (event : string) (r : list (string * listener))
  : list listener :=
  (filter (λ x, x.1 = event) r).*2.

(** The bus holds, for every event, exactly the registrations of [r]. *)
Definition agrees (this : Eventizer) (r : list (string * listener)) : Prop :=
  ∀ event, listeners this event = registered_for event r.

(** A call that does not subscribe under the name of a member of
    [Object.prototype]. *)
Definition subscribes_plain (o : op) : Prop :=
  match o with
  | On event _ => Object_prototype event = None
  | _ => True
  end.

(** ** Emission *)

Section Dispatch.

(** The payload type of the event map and the type of the values that
    callbacks throw. *)
Context {Payload Err : Type}.

(** The behaviour of the callbacks: [call cb payload bus] is the bus after
    the call [cb(payload)] and the way the call completed.  A callback
    reaches the bus only through its public methods, [subscribers] being
    private. *)
Variable call : listener → Payload → Eventizer → Eventizer * completion Err.

(** The observable course of one [emit]. *)
Record Run : Type := {
  bus : Eventizer;
  invoked : list (listener * Payload);
  console_error : list (string * Err)
}.

(** [Array.prototype.forEach]: the callback is applied to the elements in
    index order; a throw of the callback ends the loop and propagates.
    The loop runs over the array object it was called on, up to the length
    that array had at the start.  The methods never update an array in
    place except for [push] in [on], which writes past that length, and
    [off] binds a new array: the elements visited are those of the array
    at the start. *)
Fixpoint forEach {A S V : Type} (a : list A) (f : A → S → S * completion V)
    (st : S) : S * completion V :=
  match a with
  | [] => (st, Normal)
  | x :: a' =>
      match f x st with
      | (st', Normal) => forEach a' f st'
      | (st', Throw error) => (st', Throw error)
      end
  end.

(** The first argument of [console.error] in [emit]. *)
Definition error_message (event : string) : string :=
  "Error in event handler for " +:+ event +:+ ":".

(** The arrow function passed to [forEach]:
    [try { callback(payload) } catch (error) { console.error(..., error) }]. *)
Definition guarded (event : string) (payload : Payload)
    (callback : listener) (r : Run) : Run * completion (runtime_error + Err) :=
  let r' := {| bus := bus r;
               invoked := invoked r ++ [(callback, payload)];
               console_error := console_error r |} in
  match call callback payload (bus r') with
  | (b, Normal) =>
      ({| bus := b; invoked := invoked r'; console_error := console_error r' |},
       Normal)
  | (b, Throw error) =>
      ({| bus := b; invoked := invoked r';
          console_error := console_error r' ++ [(error_message event, error)] |},
       Normal)
  end.

(** [emit(event, payload)]: [this.subscribers[event]?.forEach(...)].  The
    optional chaining stops on [undefined] only: on an inherited member the
    call of [forEach] throws.  What [emit] throws is the error of the
    runtime, on the left, or a value that came out of the loop, on the
    right. *)
Definition emit (this : Eventizer) (event : string) (payload : Payload)
  : Run * completion (runtime_error + Err) :=
  let r := {| bus := this; invoked := []; console_error := [] |} in
  match get this event with
  | None => (r, Normal)
  | Some (Member _) => (r, Throw (inl TypeError))
  | Some (Array a) => forEach a (guarded event payload) r
  end.

(** How often the loop of an [emit] invoked a callback. *)
Definition times_invoked (cb : listener) (r : Run) : nat :=
  length (filter (λ c, c.1 = cb) (invoked r)).

(** The bus after the callbacks of [a] ran in order on [payload]. *)
Definition after_calls (payload : Payload) (a : list listener) (b : Eventizer)
  : Eventizer :=
  foldl (λ b cb, (call cb payload b).1) b a.

(** What the callbacks of [a], called in order on [payload] from the bus
    [b], make [emit] report: one entry for each call that throws. *)
Fixpoint reports (event : string) (payload : Payload) (a : list listener)
    (b : Eventizer) : list (string * Err) :=
  match a with
  | [] => []
  | cb :: a' =>
      match call cb payload b with
      | (b', Normal) => reports event payload a' b'
      | (b', Throw error) =>
          (error_message event, error) :: reports event payload a' b'
      end
  end.

(** A callback that never changes the bus. *)
Definition no_reentry (cb : listener) : Prop :=
  ∀ payload b, (call cb payload b).1 = b.

End Dispatch.

(** ** The context binding *)

Module EventizerContext.

(** [type EventizerContextValue = { bus: Eventizer<EM> }]. *)
Record EventizerContextValue : Type := { bus : Eventizer }.

(** The values of the providers of [EventizerContext] that enclose a
    component, the innermost first. *)
Abbreviation scope := (list EventizerContextValue).

(** [<EventizerContext.Provider value={{ bus }}>] around the children. *)
Definition EventizerProvider (b : Eventizer) (enclosing : scope) : scope :=
  {| bus := b |} :: enclosing.

(** [useContext(EventizerContext)]: the value of the innermost provider,
    and the default of [createContext], [null], when there is none. *)
Definition useContext (sc : scope) : option EventizerContextValue := head sc.

(** [new Error(message)]. *)
Inductive Error : Type := mkError (message : string).

(** [useEventizer()]: a thrown error on the left, the returned bus on the
    right.  A context value is an object, hence truthy: [!context] holds
    exactly for [null]. *)
Definition useEventizer (sc : scope) : Error + Eventizer :=
  match useContext sc with
  | None => inl (mkError "useEventizer must be used within an EventizerProvider")
  | Some context => inr (bus context)
  end.

End EventizerContext.

(** ** The entry that a removal leaves *)

(** The binding of a key after [off] ran on the binding [o]: the array
    without the callback, and no binding when that array is empty. *)
Definition entry_after_off (callback : listener) (o : option (list listener))
  : option (list listener) :=
  match o with
  | None => None
  | Some a =>
      match filter (λ cb, cb ≠ callback) a with
      | [] => None
      | x :: a' => Some (x :: a')
      end
  end.

(** ** Callbacks for the examples *)

(** Payloads are integers and thrown values are strings.  Callback [0]
    throws; callback [9] removes itself from event [x] and returns; every
    other callback returns and leaves the bus alone. *)
Definition demo_call (cb : listener) (payload : Z) (b : Eventizer)
  : Eventizer * completion string :=
  if decide (cb = 0%nat) then (b, Throw "boom")
  else if decide (cb = 9%nat) then ((off b "x" 9%nat).1, Normal)
  else (b, Normal).

(** ** Lookup equations of the methods *)

Section Lookups.

Implicit Types (this : Eventizer) (event : string) (callback : listener).

Lemma Eventizer_eq (s t : Eventizer) : subscribers s = subscribers t → s = t.
Proof. destruct s, t; simpl; congruence. Qed.

Lemma listeners_lookup this event a :
  subscribers this !! event = Some a → listeners this event = a.
Proof. unfold listeners. by intros ->. Qed.

Lemma listeners_absent this event :
  subscribers this !! event = None → listeners this event = [].
Proof. unfold listeners. by intros ->. Qed.

Lemma not_inherited_plain this event :
  Object_prototype event = None → ¬ inherited_at this event.
Proof. intros Hp [_ [len Hlen]]. congruence. Qed.

Lemma not_inherited_own this event a :
  subscribers this !! event = Some a → ¬ inherited_at this event.
Proof. intros Ha [Hn _]. congruence. Qed.

Lemma get_own this event a :
  subscribers this !! event = Some a → get this event = Some (Array a).
Proof. unfold get. by intros ->. Qed.

Lemma get_inherited this event :
  inherited_at this event →
  ∃ len, Object_prototype event = Some len ∧ get this event = Some (Member len).
Proof.
  intros [Hn [len Hlen]]. exists len. split; [done|].
  unfold get. by rewrite Hn, Hlen.
Qed.

Lemma get_undefined this event :
  subscribers this !! event = None → ¬ inherited_at this event →
  get this event = None.
Proof.
  intros Hn Hni. unfold get. rewrite Hn.
  destruct (Object_prototype event) as [len|] eqn:Hlen; [|done].
  destruct Hni. split; [done | by exists len].
Qed.

(** *** [off] *)

Lemma off_throws this event callback :
  inherited_at this event → off this event callback = (this, Throw TypeError).
Proof.
  intros Hin. destruct (get_inherited _ _ Hin) as (len & _ & Hget).
  unfold off. by rewrite Hget.
Qed.

Lemma off_own this event callback a :
  subscribers this !! event = Some a →
  off this event callback
  = ({| subscribers :=
          match filter (λ cb, cb ≠ callback) a with
          | [] => delete event (subscribers this)
          | x :: a' => <[event := x :: a']> (subscribers this)
          end |}, Normal).
Proof.
  intros Ha. unfold off. rewrite (get_own _ _ _ Ha).
  unfold get at 1; simpl. rewrite lookup_insert_eq; simpl.
  destruct (filter (λ cb, cb ≠ callback) a) as [|x a']; simpl; [|done].
  by rewrite delete_insert_eq.
Qed.

Lemma off_undefined this event callback :
  subscribers this !! event = None → ¬ inherited_at this event →
  off this event callback = (this, Normal).
Proof. intros Hn Hni. unfold off. by rewrite get_undefined. Qed.

Lemma off_absent this event callback :
  subscribers this !! event = None → (off this event callback).1 = this.
Proof.
  intros Hn. destruct (decide (inherited_at this event)).
  - by rewrite off_throws.
  - by rewrite off_undefined.
Qed.

Lemma off_returns this event callback :
  ¬ inherited_at this event → (off this event callback).2 = Normal.
Proof.
  intros Hni. destruct (subscribers this !! event) as [a|] eqn:Ha.
  - by rewrite (off_own _ _ _ a Ha).
  - by rewrite off_undefined.
Qed.

Lemma off_lookup_eq this event callback a :
  subscribers this !! event = Some a →
  subscribers (off this event callback).1 !! event
  = match filter (λ cb, cb ≠ callback) a with
    | [] => None
    | x :: a' => Some (x :: a')
    end.
Proof.
  intros Ha. rewrite (off_own _ _ _ a Ha); simpl.
  destruct (filter (λ cb, cb ≠ callback) a) as [|x a']; simpl.
  - by rewrite lookup_delete_eq.
  - by rewrite lookup_insert_eq.
Qed.

Lemma off_lookup_ne this event callback event' :
  event' ≠ event →
  subscribers (off this event callback).1 !! event' = subscribers this !! event'.
Proof.
  intros Hne. destruct (subscribers this !! event) as [a|] eqn:Ha.
  - rewrite (off_own _ _ _ a Ha); simpl.
    destruct (filter (λ cb, cb ≠ callback) a).
    + by rewrite lookup_delete_ne.
    + by rewrite lookup_insert_ne.
  - by rewrite off_absent.
Qed.

Lemma off_lookup this event callback (e : string) :
  subscribers (off this event callback).1 !! e
  = if decide (e = event)
    then entry_after_off callback (subscribers this !! event)
    else subscribers this !! e.
Proof.
  destruct (decide (e = event)) as [->|Hne]; [|by apply off_lookup_ne].
  destruct (subscribers this !! event) as [a|] eqn:Ha; simpl.
  - by rewrite (off_lookup_eq _ _ _ a Ha).
  - by rewrite off_absent, Ha.
Qed.

Lemma listeners_off_eq this event callback :
  listeners (off this event callback).1 event
  = filter (λ cb, cb ≠ callback) (listeners this event).
Proof.
  destruct (subscribers this !! event) as [a|] eqn:Ha.
  - unfold listeners at 1. rewrite (off_lookup_eq _ _ _ a Ha).
    rewrite (listeners_lookup _ _ _ Ha).
    by destruct (filter _ a).
  - rewrite off_absent by done. by rewrite listeners_absent.
Qed.

Lemma listeners_off_ne this event callback event' :
  event' ≠ event →
  listeners (off this event callback).1 event' = listeners this event'.
Proof. intros Hne. unfold listeners. by rewrite off_lookup_ne. Qed.

Lemma inherited_at_off this event callback event' :
  event' ≠ event →
  inherited_at (off this event callback).1 event' ↔ inherited_at this event'.
Proof. intros Hne. unfold inherited_at. by rewrite off_lookup_ne. Qed.

(** *** [on] *)

Lemma on_throws this event callback :
  inherited_at this event → on this event callback = (this, inl TypeError).
Proof.
  intros Hin. destruct (get_inherited _ _ Hin) as (len & _ & Hget).
  unfold on. by rewrite !Hget.
Qed.

Lemma on_returns this event callback :
  ¬ inherited_at this event →
  on this event callback
  = ({| subscribers :=
          <[event := listeners this event ++ [callback]]> (subscribers this) |},
     inr (λ this', off this' event callback)).
Proof.
  intros Hni. unfold on. destruct (subscribers this !! event) as [a|] eqn:Ha.
  - rewrite !(get_own _ _ _ Ha). by rewrite (listeners_lookup _ _ _ Ha).
  - rewrite (get_undefined this event) by done.
    unfold get; simpl. rewrite lookup_insert_eq; simpl.
    by rewrite insert_insert_eq, listeners_absent.
Qed.

Lemma on_state this event callback :
  (on this event callback).1
  = if decide (inherited_at this event) then this
    else {| subscribers :=
              <[event := listeners this event ++ [callback]]> (subscribers this) |}.
Proof.
  destruct (decide (inherited_at this event)).
  - by rewrite on_throws.
  - by rewrite on_returns.
Qed.

Lemma on_lookup_eq this event callback :
  ¬ inherited_at this event →
  subscribers (on this event callback).1 !! event
  = Some (listeners this event ++ [callback]).
Proof. intros Hni. rewrite on_returns by done. simpl. apply lookup_insert_eq. Qed.

Lemma on_lookup_ne this event callback event' :
  event' ≠ event →
  subscribers (on this event callback).1 !! event' = subscribers this !! event'.
Proof.
  intros Hne. rewrite on_state. destruct (decide _); [done|].
  simpl. by rewrite lookup_insert_ne.
Qed.

Lemma on_lookup this event callback (e : string) :
  ¬ inherited_at this event →
  subscribers (on this event callback).1 !! e
  = if decide (e = event)
    then Some (listeners this event ++ [callback])
    else subscribers this !! e.
Proof.
  intros Hni. destruct (decide (e = event)) as [->|Hne];
    [by apply on_lookup_eq | by apply on_lookup_ne].
Qed.

Lemma listeners_on_eq this event callback :
  ¬ inherited_at this event →
  listeners (on this event callback).1 event = listeners this event ++ [callback].
Proof. intros Hni. by apply listeners_lookup, on_lookup_eq. Qed.

Lemma listeners_on_ne this event callback event' :
  event' ≠ event →
  listeners (on this event callback).1 event' = listeners this event'.
Proof. intros Hne. unfold listeners. by rewrite on_lookup_ne. Qed.

Lemma inherited_at_on this event callback event' :
  event' ≠ event →
  inherited_at (on this event callback).1 event' ↔ inherited_at this event'.
Proof. intros Hne. unfold inherited_at. by rewrite on_lookup_ne. Qed.

Lemma not_inherited_after_on this event callback :
  ¬ inherited_at this event → ¬ inherited_at (on this event callback).1 event.
Proof.
  intros Hni. eapply not_inherited_own. by apply on_lookup_eq.
Qed.

(** *** [subscriberCount], [clearEvent], [clearAll] *)

Lemma subscriberCount_length this event :
  ¬ inherited_at this event →
  subscriberCount this event = Z.of_nat (length (listeners this event)).
Proof.
  intros Hni. unfold subscriberCount.
  destruct (subscribers this !! event) as [a|] eqn:Ha.
  - rewrite (get_own _ _ _ Ha), (listeners_lookup _ _ _ Ha); simpl.
    destruct (Z.eqb_spec (Z.of_nat (length a)) 0) as [->|]; done.
  - by rewrite get_undefined, listeners_absent.
Qed.

Lemma subscriberCount_inherited this event :
  inherited_at this event →
  subscriberCount this event = default 0 (Object_prototype event ≫= id).
Proof.
  intros Hin. destruct (get_inherited _ _ Hin) as (len & Hlen & Hget).
  unfold subscriberCount. rewrite Hget, Hlen; simpl.
  destruct len as [n|]; simpl; [|done].
  destruct (Z.eqb_spec n 0) as [->|]; done.
Qed.

Lemma listeners_clearEvent_eq this event :
  listeners (clearEvent this event) event = [].
Proof. unfold listeners, clearEvent; simpl. by rewrite lookup_delete_eq. Qed.

Lemma clearEvent_lookup_ne this event event' :
  event' ≠ event →
  subscribers (clearEvent this event) !! event' = subscribers this !! event'.
Proof. intros Hne. unfold clearEvent; simpl. by rewrite lookup_delete_ne. Qed.

Lemma listeners_clearAll this event : listeners (clearAll this) event = [].
Proof. done. Qed.

End Lookups.

(** ** The course of an emission *)

Section EmitFacts.

Context {Payload Err : Type}.
Variable call : listener → Payload → Eventizer → Eventizer * completion Err.

Implicit Types (this b : Eventizer) (event : string) (payload : Payload)
  (a : list listener) (r : Run (Payload:=Payload) (Err:=Err)).

Lemma after_calls_cons payload cb a b :
  after_calls call payload (cb :: a) b
  = after_calls call payload a (call cb payload b).1.
Proof. done. Qed.

Lemma after_calls_no_reentry payload a b :
  Forall (no_reentry call) a → after_calls call payload a b = b.
Proof.
  induction 1 as [|cb a Hcb _ IH]; [done|].
  by rewrite after_calls_cons, Hcb.
Qed.

(** The loop of [emit] never stops early: it calls every element, and the
    only trace a throw leaves is an entry on the console. *)
Lemma forEach_guarded event payload a r :
  forEach a (guarded call event payload) r
  = ({| bus := after_calls call payload a (bus r);
        invoked := invoked r ++ ((λ cb, (cb, payload)) <$> a);
        console_error := console_error r ++ reports call event payload a (bus r) |},
     Normal).
Proof.
  revert r. induction a as [|cb a IH]; intros r.
  - destruct r; simpl. by rewrite !app_nil_r.
  - simpl. unfold guarded at 1; simpl.
    destruct (call cb payload (bus r)) as [b' [|error]] eqn:Hcall;
      rewrite IH; simpl; by rewrite <- !app_assoc.
Qed.

(** A throw of the callback ends the loop of [forEach] at that element and
    is what the loop throws. *)
Lemma forEach_stops_at_throw {A S V : Type} (f : A → S → S * completion V)
    (a1 a2 : list A) (x : A) (st st1 st2 : S) (error : V) :
  forEach a1 f st = (st1, Normal) →
  f x st1 = (st2, Throw error) →
  forEach (a1 ++ x :: a2) f st = (st2, Throw error).
Proof.
  revert st. induction a1 as [|y a1 IH]; intros st Hpre Hx; simpl in *.
  - injection Hpre as ->. by rewrite Hx.
  - destruct (f y st) as [st' [|e]]; [by apply IH | done].
Qed.

Lemma emit_own this event payload a :
  subscribers this !! event = Some a →
  emit call this event payload
  = ({| bus := after_calls call payload a this;
        invoked := (λ cb, (cb, payload)) <$> a;
        console_error := reports call event payload a this |},
     Normal).
Proof.
  intros Ha. unfold emit. rewrite (get_own _ _ _ Ha).
  by rewrite forEach_guarded.
Qed.

Lemma emit_throws this event payload :
  inherited_at this event →
  emit call this event payload
  = ({| bus := this; invoked := []; console_error := [] |},
     Throw (inl TypeError)).
Proof.
  intros Hin. destruct (get_inherited _ _ Hin) as (len & _ & Hget).
  unfold emit. by rewrite Hget.
Qed.

Lemma emit_undefined this event payload :
  subscribers this !! event = None → ¬ inherited_at this event →
  emit call this event payload
  = ({| bus := this; invoked := []; console_error := [] |}, Normal).
Proof. intros Hn Hni. unfold emit. by rewrite get_undefined. Qed.

(** What an emission does to the bus, whom it calls and what it reports
    do not depend on how it completes. *)
Lemma emit_course this event payload :
  (emit call this event payload).1
  = {| bus := after_calls call payload (listeners this event) this;
       invoked := (λ cb, (cb, payload)) <$> listeners this event;
       console_error := reports call event payload (listeners this event) this |}.
Proof.
  destruct (subscribers this !! event) as [a|] eqn:Ha.
  - by rewrite (emit_own _ _ _ a Ha), (listeners_lookup _ _ _ Ha).
  - rewrite listeners_absent by done.
    destruct (decide (inherited_at this event)).
    + by rewrite emit_throws.
    + by rewrite emit_undefined.
Qed.

Lemma emit_returns this event payload :
  ¬ inherited_at this event → (emit call this event payload).2 = Normal.
Proof.
  intros Hni. destruct (subscribers this !! event) as [a|] eqn:Ha.
  - by rewrite (emit_own _ _ _ a Ha).
  - by rewrite emit_undefined.
Qed.

Lemma reports_tagged event payload a b :
  Forall (λ x, x.1 = error_message event) (reports call event payload a b).
Proof.
  revert b. induction a as [|cb a IH]; intros b; simpl; [constructor|].
  destruct (call cb payload b) as [b' [|error]]; [apply IH|].
  constructor; [done | apply IH].
Qed.

Lemma reports_complete event payload a b (i : nat) cb error :
  a !! i = Some cb →
  (call cb payload (after_calls call payload (take i a) b)).2 = Throw error →
  (error_message event, error) ∈ reports call event payload a b.
Proof.
  revert b i. induction a as [|x a IH]; intros b i Hi Hthrow; [done|].
  destruct i as [|i]; simpl in *.
  - injection Hi as ->.
    destruct (call cb payload b) as [b' c]; simpl in *; subst c. left.
  - specialize (IH (call x payload b).1 i Hi Hthrow).
    destruct (call x payload b) as [b' [|e']]; simpl in *; [done|by right].
Qed.

Lemma times_invoked_emit this event payload cb :
  times_invoked cb (emit call this event payload).1
  = length (filter (λ x, x = cb) (listeners this event)).
Proof.
  rewrite emit_course. unfold times_invoked; simpl.
  induction (listeners this event) as [|x a IH]; [done|].
  rewrite fmap_cons, !filter_cons; simpl.
  destruct (decide (x = cb)); simpl; by rewrite IH.
Qed.

Lemma reports_no_reentry event payload a b :
  Forall (no_reentry call) a →
  reports call event payload a b
  = omap (λ cb, match (call cb payload b).2 with
                | Throw error => Some (error_message event, error)
                | Normal => None
                end) a.
Proof.
  induction 1 as [|cb a Hcb _ IH]; [done|].
  simpl. specialize (Hcb payload b).
  destruct (call cb payload b) as [b' [|error]]; simpl in *; subst b';
    by rewrite IH.
Qed.

Lemma reports_quiet event payload a b :
  (∀ cb b', cb ∈ a → (call cb payload b').2 = Normal) →
  reports call event payload a b = [].
Proof.
  revert b. induction a as [|cb a IH]; intros b Hq; [done|].
  simpl. pose proof (Hq cb b ltac:(left)) as Hcb.
  destruct (call cb payload b) as [b' c]; simpl in *; subst c.
  apply IH. intros cb' b'' Hin. apply Hq. by right.
Qed.

Lemma after_calls_invariant payload a b :
  (∀ cb b', cb ∈ a → no_empty_entry b' → no_empty_entry (call cb payload b').1) →
  no_empty_entry b →
  no_empty_entry (after_calls call payload a b).
Proof.
  revert b. induction a as [|cb a IH]; intros b Hkeep Hinv; [done|].
  rewrite after_calls_cons. apply IH.
  - intros cb' b' Hin. apply Hkeep. by right.
  - apply Hkeep; [left | done].
Qed.

End EmitFacts.

(** ** Histories: the bus against the active registrations *)

Section Histories.

Implicit Types (this : Eventizer) (event : string) (callback : listener)
  (r : list (string * listener)) (o : op) (ops : list op).

Lemma registered_for_snoc event r event' callback :
  registered_for event (r ++ [(event', callback)])
  = registered_for event r ++ (if decide (event' = event) then [callback] else []).
Proof.
  unfold registered_for. rewrite filter_app, fmap_app.
  rewrite filter_cons, filter_nil; simpl.
  by destruct (decide (event' = event)).
Qed.

Lemma registered_for_off event r event' callback :
  registered_for event (filter (λ x, x ≠ (event', callback)) r)
  = if decide (event' = event)
    then filter (λ cb, cb ≠ callback) (registered_for event r)
    else registered_for event r.
Proof.
  unfold registered_for.
  induction r as [|[e cb] r IH]; [by destruct (decide _)|].
  rewrite !filter_cons; simpl.
  destruct (decide (event' = event)) as [->|Hne].
  - destruct (decide (e = event)) as [->|He].
    + destruct (decide ((event, cb) ≠ (event, callback))) as [Hd|Hd].
      * rewrite filter_cons; simpl. rewrite decide_True by done.
        rewrite fmap_cons, filter_cons; simpl.
        rewrite decide_True by congruence. by rewrite IH.
      * apply dec_stable in Hd. injection Hd as ->.
        rewrite fmap_cons, filter_cons; simpl.
        rewrite decide_False by (intros H; by apply H). done.
    + destruct (decide ((e, cb) ≠ (event, callback))); [|done].
      rewrite filter_cons; simpl. by rewrite decide_False.
  - destruct (decide ((e, cb) ≠ (event', callback))) as [Hd|Hd].
    + rewrite filter_cons; simpl.
      destruct (decide (e = event)); [|done].
      by rewrite !fmap_cons, IH.
    + apply dec_stable in Hd. injection Hd as -> ->.
      by rewrite decide_False.
Qed.

Lemma registered_for_clear event r event' :
  registered_for event (filter (λ x, x.1 ≠ event') r)
  = if decide (event' = event) then [] else registered_for event r.
Proof.
  unfold registered_for.
  induction r as [|[e cb] r IH]; [by destruct (decide _)|].
  rewrite !filter_cons; simpl.
  destruct (decide (e ≠ event')) as [Hd|Hd].
  - rewrite filter_cons; simpl.
    destruct (decide (e = event)) as [->|He].
    + rewrite decide_False in * by done. by rewrite !fmap_cons, IH.
    + done.
  - apply dec_stable in Hd. subst e.
    destruct (decide (event' = event)); done.
Qed.

Lemma step_agrees this r o :
  subscribes_plain o → agrees this r → agrees (step this o) (active_step r o).
Proof.
  intros Hplain Hag event.
  destruct o as [e cb|e cb|e|]; cbn [step active_step subscribes_plain] in *.
  - rewrite registered_for_snoc. destruct (decide (e = event)) as [->|Hne].
    + by rewrite listeners_on_eq, Hag by by apply not_inherited_plain.
    + by rewrite listeners_on_ne, app_nil_r.
  - rewrite registered_for_off. destruct (decide (e = event)) as [->|Hne].
    + by rewrite listeners_off_eq, Hag.
    + by rewrite listeners_off_ne.
  - rewrite registered_for_clear. destruct (decide (e = event)) as [->|Hne].
    + apply listeners_clearEvent_eq.
    + unfold listeners. rewrite clearEvent_lookup_ne by done. apply Hag.
  - done.
Qed.

Lemma foldl_agrees ops this r :
  Forall subscribes_plain ops →
  agrees this r → agrees (foldl step this ops) (foldl active_step r ops).
Proof.
  intros Hplain. revert this r.
  induction Hplain as [|o ops Ho _ IH]; intros this r Hag; [done|].
  simpl. by apply IH, step_agrees.
Qed.

Lemma run_agrees ops :
  Forall subscribes_plain ops → agrees (run ops) (active_registrations ops).
Proof. intros Hplain. by apply foldl_agrees. Qed.

Lemma run_app (ops ops' : list op) :
  run (ops ++ ops') = foldl step (run ops) ops'.
Proof. unfold run. apply foldl_app. Qed.

End Histories.

(** ** The invariants *)

Section Invariant.

Implicit Types (this : Eventizer) (event : string) (callback : listener).

Lemma no_empty_entry_new : no_empty_entry new_Eventizer.
Proof. intros event a. unfold new_Eventizer; simpl. by rewrite lookup_empty. Qed.

Lemma no_empty_entry_on this event callback :
  no_empty_entry this → no_empty_entry (on this event callback).1.
Proof.
  intros Hinv. rewrite on_state. destruct (decide _); [done|].
  intros e a; simpl. destruct (decide (e = event)) as [->|Hne].
  - rewrite lookup_insert_eq. intros [= <-]. by destruct (listeners this event).
  - rewrite lookup_insert_ne by done. apply Hinv.
Qed.

Lemma no_empty_entry_off this event callback :
  no_empty_entry this → no_empty_entry (off this event callback).1.
Proof.
  intros Hinv e a. destruct (decide (e = event)) as [->|Hne].
  - destruct (subscribers this !! event) as [a0|] eqn:Ha.
    + rewrite (off_lookup_eq _ _ _ a0 Ha).
      destruct (filter _ a0); [done|]. by intros [= <-].
    + rewrite off_absent by done. by rewrite Ha.
  - rewrite off_lookup_ne by done. apply Hinv.
Qed.

Lemma no_empty_entry_clearEvent this event :
  no_empty_entry this → no_empty_entry (clearEvent this event).
Proof.
  intros Hinv e a. destruct (decide (e = event)) as [->|Hne].
  - unfold clearEvent; simpl. by rewrite lookup_delete_eq.
  - rewrite clearEvent_lookup_ne by done. apply Hinv.
Qed.

Lemma no_empty_entry_clearAll this : no_empty_entry (clearAll this).
Proof. intros e a. unfold clearAll; simpl. by rewrite lookup_empty. Qed.

Lemma no_empty_entry_step this o :
  no_empty_entry this → no_empty_entry (step this o).
Proof.
  destruct o; cbn [step]; intros Hinv.
  - by apply no_empty_entry_on.
  - by apply no_empty_entry_off.
  - by apply no_empty_entry_clearEvent.
  - apply no_empty_entry_clearAll.
Qed.

Lemma no_empty_entry_foldl ops this :
  no_empty_entry this → no_empty_entry (foldl step this ops).
Proof.
  revert this. induction ops as [|o ops IH]; intros this Hinv; [done|].
  simpl. by apply IH, no_empty_entry_step.
Qed.

Lemma own_keys_plain_new : own_keys_plain new_Eventizer.
Proof. intros event a. unfold new_Eventizer; simpl. by rewrite lookup_empty. Qed.

Lemma own_keys_plain_on this event callback :
  own_keys_plain this → own_keys_plain (on this event callback).1.
Proof.
  intros Hinv. rewrite on_state.
  destruct (decide (inherited_at this event)) as [|Hni]; [done|].
  intros e a; simpl. destruct (decide (e = event)) as [->|Hne].
  - intros _. destruct (subscribers this !! event) as [a0|] eqn:Ha.
    + by apply (Hinv event a0).
    + destruct (Object_prototype event) as [len|] eqn:Hlen; [|done].
      destruct Hni. split; [done | by exists len].
  - rewrite lookup_insert_ne by done. apply Hinv.
Qed.

Lemma own_keys_plain_off this event callback :
  own_keys_plain this → own_keys_plain (off this event callback).1.
Proof.
  intros Hinv e a. destruct (decide (e = event)) as [->|Hne].
  - destruct (subscribers this !! event) as [a0|] eqn:Ha.
    + intros _. by apply (Hinv event a0).
    + rewrite off_absent by done. by rewrite Ha.
  - rewrite off_lookup_ne by done. apply Hinv.
Qed.

Lemma own_keys_plain_clearEvent this event :
  own_keys_plain this → own_keys_plain (clearEvent this event).
Proof.
  intros Hinv e a. destruct (decide (e = event)) as [->|Hne].
  - unfold clearEvent; simpl. by rewrite lookup_delete_eq.
  - rewrite clearEvent_lookup_ne by done. apply Hinv.
Qed.

Lemma own_keys_plain_clearAll this : own_keys_plain (clearAll this).
Proof. intros e a. unfold clearAll; simpl. by rewrite lookup_empty. Qed.

Lemma own_keys_plain_step this o :
  own_keys_plain this → own_keys_plain (step this o).
Proof.
  destruct o; cbn [step]; intros Hinv.
  - by apply own_keys_plain_on.
  - by apply own_keys_plain_off.
  - by apply own_keys_plain_clearEvent.
  - apply own_keys_plain_clearAll.
Qed.

Lemma own_keys_plain_foldl ops this :
  own_keys_plain this → own_keys_plain (foldl step this ops).
Proof.
  revert this. induction ops as [|o ops IH]; intros this Hinv; [done|].
  simpl. by apply IH, own_keys_plain_step.
Qed.

(** In a state without shadowing keys, the lookup of a name of
    [Object.prototype] always finds the inherited member. *)
Lemma inherited_at_plain_keys this event :
  own_keys_plain this → is_Some (Object_prototype event) →
  inherited_at this event.
Proof.
  intros Hinv Hsome. split; [|done].
  destruct (subscribers this !! event) as [a|] eqn:Ha; [|done].
  rewrite (Hinv event a Ha) in Hsome. by destruct Hsome.
Qed.

Lemma plain_of_not_inherited this event :
  own_keys_plain this → ¬ inherited_at this event →
  Object_prototype event = None.
Proof.
  intros Hinv Hni. destruct (Object_prototype event) as [len|] eqn:Hlen; [|done].
  destruct Hni. apply inherited_at_plain_keys; [done|]. by rewrite Hlen.
Qed.

End Invariant.

(** ** Removing a callback that is not there, or twice *)

Section OffFacts.

Implicit Types (this : Eventizer) (event : string) (callback : listener)
  (a : list listener).

Lemma filter_ne_absent callback a :
  callback ∉ a → filter (λ cb, cb ≠ callback) a = a.
Proof.
  induction a as [|x a IH]; [done|]. intros Hnot.
  apply not_elem_of_cons in Hnot as [Hx Ha].
  rewrite filter_cons, decide_True by congruence. by rewrite IH.
Qed.

Lemma filter_eq_absent callback a :
  callback ∉ a → filter (λ cb, cb = callback) a = [].
Proof.
  induction a as [|x a IH]; [done|]. intros Hnot.
  apply not_elem_of_cons in Hnot as [Hx Ha].
  rewrite filter_cons, decide_False by congruence. by apply IH.
Qed.

Lemma filter_ne_removes callback a :
  callback ∉ filter (λ cb, cb ≠ callback) a.
Proof. rewrite list_elem_of_filter. by intros [Hne _]. Qed.

Lemma filter_ne_comm (c1 c2 : listener) a :
  filter (λ cb, cb ≠ c1) (filter (λ cb, cb ≠ c2) a)
  = filter (λ cb, cb ≠ c2) (filter (λ cb, cb ≠ c1) a).
Proof.
  induction a as [|x a IH]; [done|].
  rewrite !filter_cons.
  destruct (decide (x ≠ c2)), (decide (x ≠ c1));
    rewrite ?filter_cons, ?decide_True, ?decide_False by done;
    by rewrite IH.
Qed.

Lemma filter_ne_snoc_other (c1 c2 : listener) a :
  c1 ≠ c2 →
  filter (λ cb, cb ≠ c2) (a ++ [c1]) = filter (λ cb, cb ≠ c2) a ++ [c1].
Proof.
  intros Hne. rewrite filter_app, filter_cons, decide_True by done.
  by rewrite filter_nil.
Qed.

Lemma filter_ne_snoc_same callback a :
  filter (λ cb, cb ≠ callback) (a ++ [callback])
  = filter (λ cb, cb ≠ callback) a.
Proof.
  rewrite filter_app, filter_cons, decide_False by (intros H; by apply H).
  by rewrite filter_nil, app_nil_r.
Qed.

Lemma count_filter_split callback a :
  length a
  = (length (filter (λ cb, cb ≠ callback) a)
     + length (filter (λ cb, cb = callback) a))%nat.
Proof.
  induction a as [|x a IH]; [done|].
  rewrite !filter_cons.
  destruct (decide (x = callback)) as [->|Hx].
  - rewrite decide_False by (intros H; by apply H). simpl. lia.
  - rewrite decide_True by done. simpl. lia.
Qed.

Lemma entry_after_off_filter callback a :
  entry_after_off callback (Some a)
  = match filter (λ cb, cb ≠ callback) a with
    | [] => None
    | x :: a' => Some (x :: a')
    end.
Proof. done. Qed.

Lemma entry_after_off_comm (c1 c2 : listener) (o : option (list listener)) :
  entry_after_off c1 (entry_after_off c2 o)
  = entry_after_off c2 (entry_after_off c1 o).
Proof.
  destruct o as [a|]; [|done].
  assert (Hgen : ∀ c c' b,
    entry_after_off c (entry_after_off c' (Some b))
    = entry_after_off c (Some (filter (λ cb, cb ≠ c') b))).
  { intros c c' b. rewrite (entry_after_off_filter c' b).
    by destruct (filter (λ cb, cb ≠ c') b). }
  rewrite !Hgen, !entry_after_off_filter. by rewrite filter_ne_comm.
Qed.

(** Removing a callback that is not registered changes nothing, in a
    state that keeps the invariant. *)
Lemma off_unregistered this event callback :
  no_empty_entry this → callback ∉ listeners this event →
  (off this event callback).1 = this.
Proof.
  intros Hinv Hnot. destruct (subscribers this !! event) as [a|] eqn:Ha.
  - apply Eventizer_eq, map_eq. intros e. rewrite off_lookup.
    destruct (decide (e = event)) as [->|He]; [|done].
    rewrite Ha, entry_after_off_filter.
    rewrite (listeners_lookup _ _ _ Ha) in Hnot.
    rewrite filter_ne_absent by done.
    specialize (Hinv event a Ha). by destruct a.
  - by apply off_absent.
Qed.

Lemma off_not_registered this event callback a :
  subscribers this !! event = Some a → a ≠ [] → callback ∉ a →
  off this event callback = (this, Normal).
Proof.
  intros Ha Hne Hnot. rewrite (off_own _ _ _ a Ha).
  rewrite filter_ne_absent by done. f_equal.
  apply Eventizer_eq; simpl. destruct a as [|x a']; [done|].
  by apply insert_id.
Qed.

Lemma off_off this event callback :
  (off (off this event callback).1 event callback).1
  = (off this event callback).1.
Proof.
  apply Eventizer_eq, map_eq. intros e. rewrite !off_lookup.
  destruct (decide (e = event)) as [->|He]; [|done].
  rewrite decide_True by done.
  destruct (subscribers this !! event) as [a|]; [|done].
  rewrite entry_after_off_filter.
  destruct (filter (λ cb, cb ≠ callback) a) as [|x a'] eqn:Hf; [done|].
  rewrite entry_after_off_filter, <- Hf, filter_ne_absent;
    [by rewrite Hf | apply filter_ne_removes].
Qed.

Lemma clearEvent_off this event callback :
  clearEvent (off this event callback).1 event = clearEvent this event.
Proof.
  apply Eventizer_eq, map_eq. intros e. unfold clearEvent; simpl.
  destruct (decide (e = event)) as [->|Hne].
  - by rewrite !lookup_delete_eq.
  - rewrite !lookup_delete_ne by done. by apply off_lookup_ne.
Qed.

Lemma off_covering event (ls : list listener) this :
  no_empty_entry this →
  (∀ cb, cb ∈ listeners this event → cb ∈ ls) →
  foldl (λ s cb, (off s event cb).1) this ls = clearEvent this event.
Proof.
  revert this. induction ls as [|l ls IH]; intros this Hinv Hcov; simpl.
  - apply Eventizer_eq. unfold clearEvent; simpl. symmetry. apply delete_id.
    destruct (subscribers this !! event) as [a|] eqn:Ha; [|done].
    destruct a as [|x a]; [by destruct (Hinv event [] Ha)|].
    specialize (Hcov x). rewrite (listeners_lookup _ _ _ Ha) in Hcov.
    by destruct (not_elem_of_nil x (Hcov ltac:(left))).
  - rewrite IH.
    + apply clearEvent_off.
    + by apply no_empty_entry_off.
    + intros cb. rewrite listeners_off_eq, list_elem_of_filter.
      intros [Hne Hin]. specialize (Hcov cb Hin).
      apply elem_of_cons in Hcov as [->|Hcb]; done.
Qed.

Lemma subscribe_all event (l : listener) (x : list listener) this :
  Object_prototype event = None →
  subscribers (foldl step this (On event <$> l :: x))
  = <[event := listeners this event ++ l :: x]> (subscribers this).
Proof.
  intros Hplain. revert l this. induction x as [|l' x IH]; intros l this.
  - rewrite fmap_cons, fmap_nil. cbn [foldl step].
    rewrite on_returns by by apply not_inherited_plain. done.
  - rewrite fmap_cons. cbn [foldl step]. rewrite IH.
    rewrite listeners_on_eq by by apply not_inherited_plain.
    rewrite on_returns by by apply not_inherited_plain. simpl.
    by rewrite insert_insert_eq, <- app_assoc.
Qed.

Lemma reachable_of_map (m : gmap string (list listener)) :
  (∀ e a, m !! e = Some a → a ≠ []) →
  (∀ e a, m !! e = Some a → Object_prototype e = None) →
  ∃ ops, subscribers (run ops) = m.
Proof.
  induction m as [|i x m Hi IH] using map_ind; intros Hinv Hplain.
  - by exists [].
  - destruct IH as [ops Hops].
    { intros e a Ha. apply (Hinv e a).
      rewrite lookup_insert_ne; [done|]. intros ->. by rewrite Hi in Ha. }
    { intros e a Ha. apply (Hplain e a).
      rewrite lookup_insert_ne; [done|]. intros ->. by rewrite Hi in Ha. }
    destruct x as [|l x]; [by destruct (Hinv i []); rewrite ?lookup_insert_eq|].
    exists (ops ++ (On i <$> l :: x)).
    rewrite run_app, subscribe_all.
    + unfold listeners. by rewrite Hops, Hi.
    + apply (Hplain i (l :: x)). by rewrite lookup_insert_eq.
Qed.

End OffFacts.

(** * The properties of the dispatcher *)

(** The scenario of the test suite: two callbacks on [x] are both called,
    in registration order; after [off] of the first only the second is. *)
Example two_subscribers_scenario :
  let s := (on (on new_Eventizer "x" 1%nat).1 "x" 2%nat).1 in
  invoked (emit demo_call s "x" 5).1 = [(1%nat, 5); (2%nat, 5)]
  ∧ subscriberCount s "x" = 2
  ∧ subscriberCount (off s "x" 1%nat).1 "x" = 1
  ∧ invoked (emit demo_call (off s "x" 1%nat).1 "x" 7).1 = [(2%nat, 7)].
Proof. vm_compute. done. Qed.

(** ** Delivery *)

(** The same callback registered twice for [x] is invoked twice by one
    [emit], not once: [on] keeps every registration as an entry of its own.
    And for the name [toString], which the lookup finds on
    [Object.prototype], [on] throws and registers nothing, and the [emit]
    after it throws and invokes nothing. *)
Lemma delivery_once_counterexample :
  let this := (on new_Eventizer "x" 1%nat).1 in
  let out := emit demo_call (on this "x" 1%nat).1 "x" 5 in
  let out' := emit demo_call (on new_Eventizer "toString" 1%nat).1 "toString" 5 in
  times_invoked 1%nat out.1 = 2%nat
  ∧ times_invoked 1%nat out.1 ≠ 1%nat
  ∧ (on new_Eventizer "toString" 1%nat).2 = inl TypeError
  ∧ out'.2 = Throw (inl TypeError)
  ∧ times_invoked 1%nat out'.1 = 0%nat
  ∧ times_invoked 1%nat out'.1 ≠ 1%nat.
Proof. vm_compute. repeat split; (reflexivity || discriminate). Qed.

(** C1 (amended).  For an event name [E] that is not the name of a member
    of [Object.prototype]: after [on(E, L)], [emit(E, P)] makes one call per
    registration of [E], in registration order, each with argument [P]; [L]
    is called once for each of its registrations, which is exactly once
    when [L] was not registered for [E] before; and an [emit] for an event
    without listeners calls nothing. *)
Theorem emit_after_on {Payload Err : Type}
    (call : listener → Payload → Eventizer → Eventizer * @completion Err)
    (this : Eventizer) (E : string) (P : Payload) (L : listener) :
  Object_prototype E = None →
  let this' := (on this E L).1 in
  let out := emit call this' E P in
  listeners this' E = listeners this E ++ [L]
  ∧ invoked out.1 = (λ cb, (cb, P)) <$> listeners this' E
  ∧ times_invoked L out.1
    = S (length (filter (λ cb, cb = L) (listeners this E)))
  ∧ (L ∉ listeners this E → times_invoked L out.1 = 1%nat)
  ∧ (∀ s, listeners s E = [] → invoked (emit call s E P).1 = []).
Proof.
  intros Hplain this' out. subst out this'.
  pose proof (not_inherited_plain this E Hplain) as Hni.
  assert (Hn : times_invoked L (emit call (on this E L).1 E P).1
               = S (length (filter (λ cb, cb = L) (listeners this E)))).
  { rewrite times_invoked_emit, listeners_on_eq, filter_app, length_app by done.
    rewrite filter_cons, decide_True by done. simpl. lia. }
  split; [by apply listeners_on_eq|].
  split; [by rewrite emit_course|].
  split; [done|].
  split.
  - intros Hnot. by rewrite Hn, filter_eq_absent.
  - intros s Hs. by rewrite emit_course, Hs.
Qed.

Lemma emit_after_on_witness :
  Object_prototype "x" = None
  ∧ (1%nat ∉ listeners new_Eventizer "x")
  ∧ times_invoked 1%nat (emit demo_call (on new_Eventizer "x" 1%nat).1 "x" 5).1
    = 1%nat.
Proof.
  assert (Hplain : Object_prototype "x" = None) by reflexivity.
  assert (H : 1%nat ∉ listeners new_Eventizer "x") by apply not_elem_of_nil.
  split; [exact Hplain|]. split; [exact H|].
  exact (proj1 (proj2 (proj2 (proj2
    (emit_after_on demo_call new_Eventizer "x" 5 1%nat Hplain)))) H).
Defined.

(** ** Failure isolation *)

(** C2.  For an event [E] with a listener list [a]: when callbacks throw
    during [emit(E, P)], [emit] still completes normally; every callback of
    [E], also those after a throwing one, is called with [P] in order; each
    throw is reported on the console with the message
    [Error in event handler for E:] and the thrown value; and the bus after
    the [emit] is what the callbacks themselves made of it, so that with
    callbacks that do not re-enter no registration has changed. *)
Theorem emit_isolates_failures {Payload Err : Type}
    (call : listener → Payload → Eventizer → Eventizer * @completion Err)
    (this : Eventizer) (E : string) (P : Payload) (a : list listener) :
  subscribers this !! E = Some a →
  let out := emit call this E P in
  out.2 = Normal
  ∧ invoked out.1 = (λ cb, (cb, P)) <$> a
  ∧ (∀ (j : nat) cb, a !! j = Some cb → invoked out.1 !! j = Some (cb, P))
  ∧ (∀ (i : nat) cb error,
       a !! i = Some cb →
       (call cb P (after_calls call P (take i a) this)).2 = Throw error →
       ("Error in event handler for " +:+ E +:+ ":", error)
       ∈ console_error out.1)
  ∧ Forall (λ x, x.1 = "Error in event handler for " +:+ E +:+ ":")
      (console_error out.1)
  ∧ bus out.1 = after_calls call P a this
  ∧ (Forall (no_reentry call) a → bus out.1 = this).
Proof.
  intros Ha out. subst out. rewrite (emit_own call _ _ _ a Ha); simpl.
  split; [done|]. split; [done|].
  split; [intros j cb Hj; by rewrite list_lookup_fmap, Hj|].
  split; [intros i cb error; apply reports_complete|].
  split; [apply reports_tagged|].
  split; [done|]. apply after_calls_no_reentry.
Qed.

Lemma emit_isolates_failures_witness :
  let this := (on (on new_Eventizer "x" 0%nat).1 "x" 2%nat).1 in
  let out := emit demo_call this "x" 7 in
  subscribers this !! "x" = Some [0%nat; 2%nat]
  ∧ (demo_call 0%nat 7 this).2 = Throw "boom"
  ∧ out.2 = Normal
  ∧ ("Error in event handler for x:", "boom") ∈ console_error out.1
  ∧ invoked out.1 !! 1%nat = Some (2%nat, 7)
  ∧ bus out.1 = this.
Proof.
  intros this out.
  assert (Ha : subscribers this !! "x" = Some [0%nat; 2%nat]) by reflexivity.
  pose proof (emit_isolates_failures demo_call this "x" 7 _ Ha)
    as (Hn & _ & Hj & Hi & _ & _ & Hb).
  split; [exact Ha|]. split; [reflexivity|]. split; [exact Hn|].
  split; [apply (Hi 0%nat 0%nat "boom"); reflexivity|].
  split; [apply (Hj 1%nat 2%nat); reflexivity|].
  apply Hb. repeat constructor.
Defined.

(** ** The closure returned by [on] *)

(** With the same callback registered twice for [x], the closure returned
    by the second [on] removes both registrations, not one; and when the
    callback is registered again afterwards, a second call of that closure
    removes the new registration. *)
Lemma unsubscribe_one_counterexample :
  let s1 := (on new_Eventizer "x" 1%nat).1 in
  let s2 := (on s1 "x" 1%nat).1 in
  let unsubscribe := λ s, off s "x" 1%nat in
  let s3 := (unsubscribe s2).1 in
  let s4 := (on s3 "x" 1%nat).1 in
  (on s1 "x" 1%nat).2 = inr unsubscribe
  ∧ subscriberCount s2 "x" = 2
  ∧ subscriberCount s3 "x" = 0
  ∧ subscriberCount s3 "x" ≠ subscriberCount s2 "x" - 1
  ∧ subscriberCount s4 "x" = 1
  ∧ subscriberCount (unsubscribe s4).1 "x" = 0
  ∧ (unsubscribe s4).1 ≠ s4.
Proof.
  intros s1 s2 unsubscribe s3 s4.
  split; [reflexivity|].
  split; [reflexivity|]. split; [reflexivity|]. split; [discriminate|].
  split; [reflexivity|]. split; [reflexivity|].
  intros Heq. apply (f_equal (λ s, subscriberCount s "x")) in Heq.
  vm_compute in Heq. discriminate.
Qed.

(** C3 (amended).  In a state where no own key has the name of a member
    of [Object.prototype], as in every state the methods produce, the
    closure that [on(E, L)] returns performs [off(E, L)] on the state the
    bus has when the closure is called.  Each call removes every
    registration of [L] for [E] there is at that time, which is exactly one
    registration when [L] is registered once, and leaves the other events
    alone.  A call made while [L] is not registered for [E], as a second
    call right after the first is, changes nothing; and no call throws.
    [on] returns such a closure for every name that is not the name of a
    member of [Object.prototype]. *)
Theorem unsubscribe_is_off (this : Eventizer) (E : string) (L : listener)
    (unsubscribe : Eventizer → Eventizer * completion runtime_error) :
  own_keys_plain this →
  (on this E L).2 = inr unsubscribe →
  let this' := (on this E L).1 in
  (∀ s, unsubscribe s = off s E L)
  ∧ listeners (unsubscribe this').1 E
    = filter (λ cb, cb ≠ L) (listeners this E)
  ∧ (∀ E', E' ≠ E →
       subscribers (unsubscribe this').1 !! E' = subscribers this !! E')
  ∧ (L ∉ listeners this E →
       listeners (unsubscribe this').1 E = listeners this E
       ∧ subscriberCount (unsubscribe this').1 E = subscriberCount this' E - 1)
  ∧ (∀ s, L ∉ listeners (unsubscribe s).1 E)
  ∧ (∀ s, (unsubscribe (unsubscribe s).1).1 = (unsubscribe s).1)
  ∧ (∀ s, no_empty_entry s → L ∉ listeners s E → (unsubscribe s).1 = s)
  ∧ (∀ s, (unsubscribe s).2 = Normal)
  ∧ (∀ s E' L', Object_prototype E' = None → ∃ u, (on s E' L').2 = inr u).
Proof.
  intros Hkeys Hret this'. subst this'.
  assert (Hplain : Object_prototype E = None).
  { apply (plain_of_not_inherited this); [done|].
    intros Hin. by rewrite on_throws in Hret. }
  assert (Hni : ∀ s, ¬ inherited_at s E) by (intros s; by apply not_inherited_plain).
  rewrite on_returns in Hret by done. injection Hret as <-.
  assert (Hf : listeners (off (on this E L).1 E L).1 E
               = filter (λ cb, cb ≠ L) (listeners this E)).
  { by rewrite listeners_off_eq, listeners_on_eq, filter_ne_snoc_same. }
  split; [done|]. split; [exact Hf|].
  split; [intros E' Hne; by rewrite off_lookup_ne, on_lookup_ne|].
  split.
  { intros Hnot. rewrite !subscriberCount_length, Hf, listeners_on_eq by done.
    rewrite filter_ne_absent by done. rewrite length_app; simpl.
    split; [done | lia]. }
  split; [intros s; rewrite listeners_off_eq; apply filter_ne_removes|].
  split; [intros s; apply off_off|].
  split; [intros s; apply off_unregistered|].
  split; [intros s; by apply off_returns|].
  intros s E' L' Hp. rewrite on_returns by by apply not_inherited_plain.
  by eexists.
Qed.

Lemma unsubscribe_is_off_witness :
  let this := (on new_Eventizer "x" 2%nat).1 in
  let unsubscribe := λ s, off s "x" 1%nat in
  own_keys_plain this
  ∧ (on this "x" 1%nat).2 = inr unsubscribe
  ∧ (1%nat ∉ listeners this "x")
  ∧ listeners (unsubscribe (on this "x" 1%nat).1).1 "x" = listeners this "x"
  ∧ subscriberCount (unsubscribe (on this "x" 1%nat).1).1 "x"
    = subscriberCount (on this "x" 1%nat).1 "x" - 1.
Proof.
  intros this unsubscribe.
  assert (Hkeys : own_keys_plain this)
    by exact (own_keys_plain_on new_Eventizer "x" 2%nat own_keys_plain_new).
  assert (Hret : (on this "x" 1%nat).2 = inr unsubscribe) by reflexivity.
  assert (H : 1%nat ∉ listeners this "x").
  { intros Hin. apply list_elem_of_singleton in Hin. discriminate. }
  pose proof (unsubscribe_is_off this "x" 1%nat unsubscribe Hkeys Hret)
    as (_ & _ & _ & Hone & _).
  destruct (Hone H) as [Hl Hc].
  split; [exact Hkeys|]. split; [exact Hret|]. split; [exact H|].
  split; [exact Hl | exact Hc].
Defined.

(** ** Removal *)

(** C4.  [off] for an event without listeners is not always a silent
    no-op: on a fresh bus the event [constructor] has no listeners, and
    [off] for it does not return.  The lookup finds the inherited member,
    which has no [filter], and the call throws. *)
Theorem off_without_listeners_throws :
  listeners new_Eventizer "constructor" = []
  ∧ off new_Eventizer "constructor" 1%nat = (new_Eventizer, Throw TypeError).
Proof. split; reflexivity. Qed.

(** ** Counting *)

(** C5.  [subscriberCount] is not always the number of active
    registrations: on a fresh bus, after no call at all, there is no active
    registration, and [subscriberCount] for [constructor] is [1], the
    [length] of the inherited member. *)
Theorem subscriberCount_without_registration :
  active_registrations [] = []
  ∧ listeners (run []) "constructor" = []
  ∧ subscriberCount (run []) "constructor" = 1.
Proof. repeat split; reflexivity. Qed.

(** ** Clearing *)

(** C6.  The count of a cleared event is not always [0]: after
    [clearEvent] for [constructor], and after [clearAll], the count of
    [constructor] is [1] in every state, because the lookup falls back on
    the inherited member. *)
Theorem subscriberCount_after_clear (this : Eventizer) :
  subscriberCount (clearEvent this "constructor") "constructor" = 1
  ∧ subscriberCount (clearAll this) "constructor" = 1.
Proof.
  split.
  - unfold subscriberCount, get, clearEvent; simpl.
    by rewrite lookup_delete_eq.
  - reflexivity.
Qed.

(** ** The invariant of the subscriber mapping *)

(** C7.  A fresh bus has an empty mapping, and the invariant that a key
    which is present holds a non-empty array is kept by [on], [off],
    [clearEvent] and [clearAll]; hence it holds after every history of
    such calls on a fresh bus, where an event without listeners is an
    event without key. *)
Theorem no_empty_entry_invariant :
  subscribers new_Eventizer = ∅
  ∧ no_empty_entry new_Eventizer
  ∧ (∀ this E L, no_empty_entry this → no_empty_entry (on this E L).1)
  ∧ (∀ this E L, no_empty_entry this → no_empty_entry (off this E L).1)
  ∧ (∀ this E, no_empty_entry this → no_empty_entry (clearEvent this E))
  ∧ (∀ this, no_empty_entry this → no_empty_entry (clearAll this))
  ∧ (∀ ops, no_empty_entry (run ops))
  ∧ (∀ ops E, listeners (run ops) E = [] ↔ subscribers (run ops) !! E = None).
Proof.
  assert (Hrun : ∀ ops, no_empty_entry (run ops)).
  { intros ops. apply no_empty_entry_foldl, no_empty_entry_new. }
  split; [done|]. split; [apply no_empty_entry_new|].
  split; [apply no_empty_entry_on|]. split; [apply no_empty_entry_off|].
  split; [apply no_empty_entry_clearEvent|].
  split; [intros this _; apply no_empty_entry_clearAll|].
  split; [exact Hrun|].
  intros ops E. split; [|apply listeners_absent].
  unfold listeners. destruct (subscribers (run ops) !! E) as [a|] eqn:Ha; [|done].
  simpl. intros ->. by destruct (Hrun ops E [] Ha).
Qed.

Lemma no_empty_entry_invariant_witness :
  let this := (on new_Eventizer "x" 1%nat).1 in
  no_empty_entry this ∧ no_empty_entry (off this "x" 1%nat).1.
Proof.
  intros this.
  pose proof no_empty_entry_invariant as (_ & Hnew & Hon & Hoff & _).
  assert (H : no_empty_entry this) by exact (Hon new_Eventizer "x" 1%nat Hnew).
  split; [exact H | exact (Hoff this "x" 1%nat H)].
Defined.

(** ** Isolation across events, and reads *)

(** C8.  A callback registered for [E2] only is not called by
    [emit(E1, P)] when [E1] differs from [E2]; and when the callbacks of
    [E1] do not re-enter the bus, the bus after [emit(E1, P)] is the bus
    before it, entry for entry.  [subscriberCount] is a function of the
    state that yields a number and no state: its values before and after
    the [emit] agree for every event. *)
Theorem emit_frame {Payload Err : Type}
    (call : listener → Payload → Eventizer → Eventizer * @completion Err)
    (this : Eventizer) (E1 E2 : string) (P : Payload) (L : listener) :
  E1 ≠ E2 →
  L ∈ listeners this E2 →
  (∀ E, L ∈ listeners this E → E = E2) →
  let out := emit call this E1 P in
  times_invoked L out.1 = 0%nat
  ∧ (∀ p, (L, p) ∉ invoked out.1)
  ∧ (Forall (no_reentry call) (listeners this E1) →
       bus out.1 = this
       ∧ (∀ E, subscribers (bus out.1) !! E = subscribers this !! E)
       ∧ (∀ E, subscriberCount (bus out.1) E = subscriberCount this E)).
Proof.
  intros Hne Hin Honly out. subst out.
  assert (Hnot : L ∉ listeners this E1).
  { intros HL. by apply Hne, Honly. }
  split; [by rewrite times_invoked_emit, filter_eq_absent|].
  split.
  - intros p. rewrite emit_course; simpl. rewrite list_elem_of_fmap.
    intros (cb & [= <- _] & Hcb). by apply Hnot.
  - intros Hquiet. rewrite emit_course; simpl.
    by rewrite after_calls_no_reentry.
Qed.

Lemma emit_frame_witness :
  let this := (on (on new_Eventizer "x" 1%nat).1 "y" 2%nat).1 in
  let out := emit demo_call this "x" 5 in
  "x" ≠ "y"
  ∧ 2%nat ∈ listeners this "y"
  ∧ Forall (no_reentry demo_call) (listeners this "x")
  ∧ times_invoked 2%nat out.1 = 0%nat
  ∧ bus out.1 = this.
Proof.
  intros this out.
  assert (Hne : "x" ≠ "y") by discriminate.
  assert (Hin : 2%nat ∈ listeners this "y") by (vm_compute; left).
  assert (Honly : ∀ E, 2%nat ∈ listeners this E → E = "y").
  { intros E. unfold this. destruct (decide (E = "y")) as [->|HE]; [done|].
    rewrite listeners_on_ne by done.
    destruct (decide (E = "x")) as [->|HE'].
    - intros Hx. vm_compute in Hx.
      apply list_elem_of_singleton in Hx. discriminate.
    - rewrite listeners_on_ne by done. intros Hx.
      by apply not_elem_of_nil in Hx. }
  assert (Hquiet : Forall (no_reentry demo_call) (listeners this "x")).
  { repeat constructor. }
  pose proof (emit_frame demo_call this "x" "y" 5 2%nat Hne Hin Honly)
    as (Hzero & _ & Hbus).
  split; [exact Hne|]. split; [exact Hin|]. split; [exact Hquiet|].
  split; [exact Hzero | exact (proj1 (Hbus Hquiet))].
Defined.

(** A callback that re-enters does change the bus during an [emit]:
    callback [9] unsubscribes itself, and is still called in that pass. *)
Example emit_with_reentry :
  let this := (on (on new_Eventizer "x" 9%nat).1 "x" 2%nat).1 in
  let out := emit demo_call this "x" 5 in
  invoked out.1 = [(9%nat, 5); (2%nat, 5)]
  ∧ listeners (bus out.1) "x" = [2%nat].
Proof. vm_compute. done. Qed.

(** ** Retrieval through the context *)

(** C9.  [useEventizer] throws its error when no provider encloses the
    caller, and only then; under a provider it returns the bus that the
    innermost provider was given. *)
Theorem useEventizer_requires_provider :
  EventizerContext.useEventizer []
  = inl (EventizerContext.mkError
           "useEventizer must be used within an EventizerProvider")
  ∧ (∀ sc, (∃ err, EventizerContext.useEventizer sc = inl err) ↔ sc = [])
  ∧ (∀ b enclosing,
       EventizerContext.useEventizer
         (EventizerContext.EventizerProvider b enclosing) = inr b).
Proof.
  split; [done|]. split; [|done].
  intros sc. split.
  - intros [err Herr]. by destruct sc.
  - intros ->. by eexists.
Qed.

(** ** Idempotence of removal *)

(** C10.  Two [off(E, L)] calls in a row leave the state that one leaves;
    and when [E] has listeners and none is [L], [off(E, L)] leaves the
    state as it is, so that every count and every emission is the same. *)
Theorem off_idempotent {Payload Err : Type}
    (call : listener → Payload → Eventizer → Eventizer * @completion Err)
    (this : Eventizer) (E : string) (L : listener) :
  (off (off this E L).1 E L).1 = (off this E L).1
  ∧ (∀ a, subscribers this !! E = Some a → a ≠ [] → L ∉ a →
       (off this E L).1 = this
       ∧ (∀ E', subscriberCount (off this E L).1 E' = subscriberCount this E')
       ∧ (∀ E' P, emit call (off this E L).1 E' P = emit call this E' P)).
Proof.
  split; [apply off_off|].
  intros a Ha Hne Hnot.
  by rewrite (off_not_registered _ _ _ a Ha Hne Hnot).
Qed.

Lemma off_idempotent_witness :
  let this := (on new_Eventizer "x" 2%nat).1 in
  subscribers this !! "x" = Some [2%nat]
  ∧ [2%nat] ≠ []
  ∧ (1%nat ∉ [2%nat])
  ∧ (off this "x" 1%nat).1 = this
  ∧ emit demo_call (off this "x" 1%nat).1 "x" 5 = emit demo_call this "x" 5.
Proof.
  intros this.
  assert (Ha : subscribers this !! "x" = Some [2%nat]) by reflexivity.
  assert (Hne : [2%nat] ≠ ([] : list listener)) by discriminate.
  assert (Hnot : 1%nat ∉ [2%nat]).
  { intros Hin. apply list_elem_of_singleton in Hin. discriminate. }
  pose proof (off_idempotent demo_call this "x" 1%nat) as [_ Hsame].
  destruct (Hsame [2%nat] Ha Hne Hnot) as (Hoff & _ & Hemit).
  split; [exact Ha|]. split; [exact Hne|]. split; [exact Hnot|].
  split; [exact Hoff | exact (Hemit "x" 5)].
Defined.

(** * How the methods compose *)

Section PlainNames.

Implicit Types (this : Eventizer) (event : string).

Lemma Object_prototype_nonneg event (n : Z) :
  Object_prototype event = Some (Some n) → 0 ≤ n.
Proof.
  unfold Object_prototype. intros Hl.
  apply elem_of_list_to_map_2 in Hl.
  unfold Object_prototype_members in Hl.
  repeat (apply elem_of_cons in Hl as [Heq|Hl]; [simplify_eq; lia|]).
  by apply not_elem_of_nil in Hl.
Qed.

Lemma subscriberCount_nonneg this event : 0 ≤ subscriberCount this event.
Proof.
  destruct (decide (inherited_at this event)) as [Hin|Hni].
  - rewrite subscriberCount_inherited by done.
    destruct (Object_prototype event) as [[n|]|] eqn:Hlen; simpl; try lia.
    by apply (Object_prototype_nonneg event).
  - rewrite subscriberCount_length by done. lia.
Qed.

End PlainNames.

(** ** Subscribing and unsubscribing *)

(** X1.  Subscribing a callback that is not registered for the event and
    then calling the returned closure gives back the state from before,
    key for key, in every state that keeps the invariant. *)
Theorem on_then_unsubscribe_restores (this : Eventizer) (E : string) (L : listener)
    (unsubscribe : Eventizer → Eventizer * completion runtime_error) :
  no_empty_entry this →
  L ∉ listeners this E →
  (on this E L).2 = inr unsubscribe →
  (unsubscribe (on this E L).1).1 = this.
Proof.
  intros Hinv Hnot Hret.
  destruct (decide (inherited_at this E)) as [Hin|Hni].
  { by rewrite on_throws in Hret. }
  rewrite on_returns in Hret by done. injection Hret as <-.
  apply Eventizer_eq, map_eq. intros e.
  rewrite off_lookup. destruct (decide (e = E)) as [->|Hne].
  - rewrite on_lookup_eq, entry_after_off_filter by done.
    rewrite filter_ne_snoc_same, filter_ne_absent by done.
    unfold listeners. destruct (subscribers this !! E) as [a|] eqn:Ha; [|done].
    simpl. specialize (Hinv E a Ha). by destruct a.
  - by rewrite on_lookup_ne.
Qed.

Lemma on_then_unsubscribe_restores_witness :
  let this := (on new_Eventizer "x" 2%nat).1 in
  let unsubscribe := λ s, off s "x" 1%nat in
  no_empty_entry this
  ∧ (1%nat ∉ listeners this "x")
  ∧ (on this "x" 1%nat).2 = inr unsubscribe
  ∧ (unsubscribe (on this "x" 1%nat).1).1 = this.
Proof.
  intros this unsubscribe.
  assert (Hinv : no_empty_entry this)
    by exact (no_empty_entry_on new_Eventizer "x" 2%nat no_empty_entry_new).
  assert (Hnot : 1%nat ∉ listeners this "x").
  { intros Hin. apply list_elem_of_singleton in Hin. discriminate. }
  assert (Hret : (on this "x" 1%nat).2 = inr unsubscribe) by reflexivity.
  split; [exact Hinv|]. split; [exact Hnot|]. split; [exact Hret|].
  exact (on_then_unsubscribe_restores this "x" 1%nat unsubscribe Hinv Hnot Hret).
Defined.

(** X2.  An [on] that returns raises the count of its event by one; an
    [on] that throws leaves the state as it was; and in both cases the
    count of every other event is unchanged. *)
Theorem on_increments_count (this : Eventizer) (E : string) (L : listener) :
  (∀ unsubscribe, (on this E L).2 = inr unsubscribe →
     subscriberCount (on this E L).1 E = subscriberCount this E + 1)
  ∧ ((on this E L).2 = inl TypeError → (on this E L).1 = this)
  ∧ (∀ E', E' ≠ E →
       subscriberCount (on this E L).1 E' = subscriberCount this E').
Proof.
  split; [|split].
  - intros unsubscribe Hret.
    destruct (decide (inherited_at this E)) as [Hin|Hni].
    { by rewrite on_throws in Hret. }
    rewrite !subscriberCount_length, listeners_on_eq, length_app;
      try done; [simpl; lia | by apply not_inherited_after_on].
  - intros Hthrow. destruct (decide (inherited_at this E)) as [Hin|Hni].
    + by rewrite on_throws.
    + by rewrite on_returns in Hthrow.
  - intros E' Hne. unfold subscriberCount, get. by rewrite on_lookup_ne.
Qed.

Lemma on_increments_count_witness :
  let unsubscribe := λ s, off s "x" 1%nat in
  (on new_Eventizer "x" 1%nat).2 = inr unsubscribe
  ∧ subscriberCount (on new_Eventizer "x" 1%nat).1 "x"
    = subscriberCount new_Eventizer "x" + 1
  ∧ (on new_Eventizer "toString" 1%nat).2 = inl TypeError
  ∧ (on new_Eventizer "toString" 1%nat).1 = new_Eventizer.
Proof.
  intros unsubscribe.
  assert (Hret : (on new_Eventizer "x" 1%nat).2 = inr unsubscribe) by reflexivity.
  assert (Hthrow : (on new_Eventizer "toString" 1%nat).2 = inl TypeError)
    by reflexivity.
  split; [exact Hret|].
  split; [exact (proj1 (on_increments_count new_Eventizer "x" 1%nat)
                   unsubscribe Hret)|].
  split; [exact Hthrow|].
  exact (proj1 (proj2 (on_increments_count new_Eventizer "toString" 1%nat))
           Hthrow).
Defined.

(** X3.  In a state where no own key has the name of a member of
    [Object.prototype], as in every state the methods produce, [off] lowers
    the count of its event by the number of entries equal to the callback,
    so never raises it, and leaves the count of every other event as it
    was. *)
Theorem off_decrements_count (this : Eventizer) (E : string) (L : listener) :
  own_keys_plain this →
  subscriberCount (off this E L).1 E
  = subscriberCount this E
    - Z.of_nat (length (filter (λ cb, cb = L) (listeners this E)))
  ∧ subscriberCount (off this E L).1 E ≤ subscriberCount this E
  ∧ (∀ E', E' ≠ E →
       subscriberCount (off this E L).1 E' = subscriberCount this E').
Proof.
  intros Hkeys.
  assert (Hc : subscriberCount (off this E L).1 E
               = subscriberCount this E
                 - Z.of_nat (length (filter (λ cb, cb = L) (listeners this E)))).
  { destruct (decide (inherited_at this E)) as [Hin|Hni].
    - rewrite off_throws by done. cbn [fst].
      rewrite listeners_absent by apply Hin. simpl. lia.
    - pose proof (plain_of_not_inherited _ _ Hkeys Hni) as Hplain.
      rewrite !subscriberCount_length, listeners_off_eq
        by by apply not_inherited_plain.
      pose proof (count_filter_split L (listeners this E)). lia. }
  split; [exact Hc|]. split; [lia|].
  intros E' Hne. unfold subscriberCount, get. by rewrite off_lookup_ne.
Qed.

Lemma off_decrements_count_witness :
  let this := (on (on new_Eventizer "x" 1%nat).1 "x" 1%nat).1 in
  own_keys_plain this
  ∧ subscriberCount this "x" = 2
  ∧ subscriberCount (off this "x" 1%nat).1 "x" = 0.
Proof.
  intros this.
  assert (Hkeys : own_keys_plain this).
  { repeat apply own_keys_plain_on. apply own_keys_plain_new. }
  split; [exact Hkeys|]. split; [reflexivity|].
  etransitivity;
    [exact (proj1 (off_decrements_count this "x" 1%nat Hkeys)) | reflexivity].
Defined.

(** X4.  Two removals commute: the state after [off(E1, L1)] and
    [off(E2, L2)] does not depend on their order. *)
Theorem off_commutes (this : Eventizer) (E1 E2 : string) (L1 L2 : listener) :
  (off (off this E1 L1).1 E2 L2).1 = (off (off this E2 L2).1 E1 L1).1.
Proof.
  apply Eventizer_eq, map_eq. intros e. rewrite !off_lookup.
  repeat case_decide; simplify_eq; try done.
  apply entry_after_off_comm.
Qed.

(** X5.  Subscriptions to different events commute: the state after
    [on(E1, L1)] and [on(E2, L2)] does not depend on their order. *)
Theorem on_commutes (this : Eventizer) (E1 E2 : string) (L1 L2 : listener) :
  E1 ≠ E2 →
  (on (on this E1 L1).1 E2 L2).1 = (on (on this E2 L2).1 E1 L1).1.
Proof.
  intros Hne.
  rewrite (on_state (on this E1 L1).1), (on_state (on this E2 L2).1).
  rewrite (decide_ext _ _ _ _ (inherited_at_on this E1 L1 E2 (not_eq_sym Hne))).
  rewrite (decide_ext _ _ _ _ (inherited_at_on this E2 L2 E1 Hne)).
  rewrite (listeners_on_ne this E1 L1 E2), (listeners_on_ne this E2 L2 E1)
    by done.
  rewrite !on_state.
  destruct (decide (inherited_at this E1)), (decide (inherited_at this E2));
    try done.
  apply Eventizer_eq; simpl. by apply insert_insert_ne.
Qed.

Lemma on_commutes_witness :
  "x" ≠ "y"
  ∧ (on (on new_Eventizer "x" 1%nat).1 "y" 2%nat).1
    = (on (on new_Eventizer "y" 2%nat).1 "x" 1%nat).1.
Proof.
  assert (Hne : "x" ≠ "y") by discriminate.
  split; [exact Hne|].
  exact (on_commutes new_Eventizer "x" "y" 1%nat 2%nat Hne).
Defined.

(** X6.  In a state where no own key has the name of a member of
    [Object.prototype], as in every state the methods produce, a
    subscription and a removal commute unless they are for the same
    callback on the same event. *)
Theorem on_off_commute (this : Eventizer) (E1 E2 : string) (L1 L2 : listener) :
  own_keys_plain this →
  E1 ≠ E2 ∨ L1 ≠ L2 →
  (off (on this E1 L1).1 E2 L2).1 = (on (off this E2 L2).1 E1 L1).1.
Proof.
  intros Hkeys Hdiff.
  destruct (decide (inherited_at this E1)) as [Hin|Hni].
  - rewrite (on_throws this) by done. cbn [fst]. symmetry.
    rewrite on_throws; [done|].
    apply inherited_at_plain_keys; [by apply own_keys_plain_off | apply Hin].
  - pose proof (plain_of_not_inherited _ _ Hkeys Hni) as Hplain.
    assert (Hall : ∀ s, ¬ inherited_at s E1)
      by (intros s; by apply not_inherited_plain).
    apply Eventizer_eq, map_eq. intros e.
    rewrite off_lookup, (on_lookup (off this E2 L2).1), !on_lookup, off_lookup
      by done.
    destruct (decide (E1 = E2)) as [<-|HE].
    + destruct Hdiff as [?|HL]; [done|].
      destruct (decide (e = E1)) as [->|He]; [|done].
      rewrite decide_True by done.
      rewrite entry_after_off_filter, filter_ne_snoc_other, listeners_off_eq
        by done.
      by destruct (filter (λ cb, cb ≠ L2) (listeners this E1)).
    + rewrite (decide_False (P := E2 = E1)) by done.
      rewrite listeners_off_ne by done.
      repeat case_decide; by simplify_eq.
Qed.

Lemma on_off_commute_witness :
  let this := (on new_Eventizer "x" 2%nat).1 in
  own_keys_plain this
  ∧ ("x" ≠ "x" ∨ 1%nat ≠ 2%nat)
  ∧ (off (on this "x" 1%nat).1 "x" 2%nat).1
    = (on (off this "x" 2%nat).1 "x" 1%nat).1.
Proof.
  intros this.
  assert (Hkeys : own_keys_plain this)
    by exact (own_keys_plain_on new_Eventizer "x" 2%nat own_keys_plain_new).
  assert (Hd : "x" ≠ "x" ∨ 1%nat ≠ 2%nat) by (right; discriminate).
  split; [exact Hkeys|]. split; [exact Hd|].
  exact (on_off_commute this "x" "x" 1%nat 2%nat Hkeys Hd).
Defined.

(** ** Removing everything, and subscribing again *)

(** X7.  In a state that keeps the invariant, removing the callbacks of an
    event one after the other with [off] ends in the state that
    [clearEvent] gives at once. *)
Theorem off_each_is_clearEvent (this : Eventizer) (E : string) :
  no_empty_entry this →
  foldl (λ s cb, (off s E cb).1) this (listeners this E) = clearEvent this E.
Proof. intros Hinv. by apply off_covering. Qed.

Lemma off_each_is_clearEvent_witness :
  let this := (on (on (on new_Eventizer "x" 1%nat).1 "x" 2%nat).1 "x" 1%nat).1 in
  no_empty_entry this
  ∧ foldl (λ s cb, (off s "x" cb).1) this (listeners this "x")
    = clearEvent this "x".
Proof.
  intros this.
  assert (Hinv : no_empty_entry this).
  { repeat apply no_empty_entry_on. apply no_empty_entry_new. }
  split; [exact Hinv | exact (off_each_is_clearEvent this "x" Hinv)].
Defined.

(** X8.  For an event name that is not the name of a member of
    [Object.prototype], [off(E, L)] followed by [on(E, L)] leaves the other
    callbacks of [E] in their order and [L] registered exactly once, at the
    end. *)
Theorem resubscribe_moves_to_end (this : Eventizer) (E : string) (L : listener) :
  Object_prototype E = None →
  let this' := (on (off this E L).1 E L).1 in
  listeners this' E = filter (λ cb, cb ≠ L) (listeners this E) ++ [L]
  ∧ length (filter (λ cb, cb = L) (listeners this' E)) = 1%nat.
Proof.
  intros Hplain this'. subst this'.
  rewrite listeners_on_eq, listeners_off_eq by by apply not_inherited_plain.
  split; [done|].
  rewrite filter_app, filter_eq_absent by apply filter_ne_removes.
  by rewrite filter_cons, decide_True.
Qed.

Lemma resubscribe_moves_to_end_witness :
  let this := (on (on new_Eventizer "x" 1%nat).1 "x" 2%nat).1 in
  Object_prototype "x" = None
  ∧ listeners (on (off this "x" 1%nat).1 "x" 1%nat).1 "x" = [2%nat; 1%nat].
Proof.
  intros this.
  assert (Hplain : Object_prototype "x" = None) by reflexivity.
  split; [exact Hplain|].
  etransitivity;
    [exact (proj1 (resubscribe_moves_to_end this "x" 1%nat Hplain)) | reflexivity].
Defined.

(** X13.  The states in which every own key holds a non-empty array and
    no own key has the name of a member of [Object.prototype] are exactly
    the states that some history of mutating calls on a fresh bus
    produces. *)
Theorem invariant_iff_reachable (this : Eventizer) :
  no_empty_entry this ∧ own_keys_plain this ↔ ∃ ops, run ops = this.
Proof.
  split.
  - intros [Hinv Hkeys].
    destruct (reachable_of_map (subscribers this) Hinv Hkeys) as [ops Hops].
    exists ops. by apply Eventizer_eq.
  - intros [ops <-]. split.
    + apply no_empty_entry_foldl, no_empty_entry_new.
    + apply own_keys_plain_foldl, own_keys_plain_new.
Qed.

Lemma invariant_iff_reachable_witness :
  let this := (on new_Eventizer "x" 1%nat).1 in
  no_empty_entry this ∧ own_keys_plain this ∧ ∃ ops, run ops = this.
Proof.
  intros this.
  assert (Hinv : no_empty_entry this)
    by exact (no_empty_entry_on new_Eventizer "x" 1%nat no_empty_entry_new).
  assert (Hkeys : own_keys_plain this)
    by exact (own_keys_plain_on new_Eventizer "x" 1%nat own_keys_plain_new).
  split; [exact Hinv|]. split; [exact Hkeys|].
  exact (proj1 (invariant_iff_reachable this) (conj Hinv Hkeys)).
Defined.

(** ** More on emission *)

(** X9.  For an event name that is not the name of a member of
    [Object.prototype], one [emit] makes as many calls as [subscriberCount]
    reports for the event, in every state and for every behaviour of the
    callbacks. *)
Theorem emit_calls_as_many_as_counted {Payload Err : Type}
    (call : listener → Payload → Eventizer → Eventizer * @completion Err)
    (this : Eventizer) (E : string) (P : Payload) :
  Object_prototype E = None →
  Z.of_nat (length (invoked (emit call this E P).1)) = subscriberCount this E.
Proof.
  intros Hplain.
  rewrite emit_course, subscriberCount_length by by apply not_inherited_plain.
  simpl. by rewrite length_fmap.
Qed.

Lemma emit_calls_as_many_as_counted_witness :
  let this := (on (on new_Eventizer "x" 0%nat).1 "x" 9%nat).1 in
  Object_prototype "x" = None
  ∧ Z.of_nat (length (invoked (emit demo_call this "x" 5).1)) = 2
  ∧ subscriberCount this "x" = 2.
Proof.
  intros this.
  assert (Hplain : Object_prototype "x" = None) by reflexivity.
  pose proof (emit_calls_as_many_as_counted demo_call this "x" 5 Hplain) as Hc.
  split; [exact Hplain|].
  split; [etransitivity; [exact Hc | reflexivity] | reflexivity].
Defined.

(** X10.  When the callbacks of the event do not re-enter the bus and each
    is registered once, what [emit] writes to the console is one entry for
    each callback that throws, in call order: the message
    [Error in event handler for E:] and the thrown value. *)
Theorem console_reports_in_call_order {Payload Err : Type}
    (call : listener → Payload → Eventizer → Eventizer * @completion Err)
    (this : Eventizer) (E : string) (P : Payload) :
  Forall (no_reentry call) (listeners this E) →
  NoDup (listeners this E) →
  console_error (emit call this E P).1
  = omap (λ cb, match (call cb P this).2 with
                | Throw error =>
                    Some ("Error in event handler for " +:+ E +:+ ":", error)
                | Normal => None
                end) (listeners this E).
Proof.
  intros Hquiet _. rewrite emit_course; simpl. by apply reports_no_reentry.
Qed.

Lemma console_reports_in_call_order_witness :
  let this := (on (on (on new_Eventizer "x" 0%nat).1 "x" 2%nat).1 "x" 1%nat).1 in
  Forall (no_reentry demo_call) (listeners this "x")
  ∧ NoDup (listeners this "x")
  ∧ console_error (emit demo_call this "x" 5).1
    = [("Error in event handler for x:", "boom")].
Proof.
  intros this.
  assert (Hquiet : Forall (no_reentry demo_call) (listeners this "x")).
  { repeat constructor. }
  assert (Hnodup : NoDup (listeners this "x")).
  { change (NoDup [0%nat; 2%nat; 1%nat]).
    apply NoDup_ListNoDup. repeat constructor; simpl; intuition discriminate. }
  split; [exact Hquiet|]. split; [exact Hnodup|].
  etransitivity;
    [exact (console_reports_in_call_order demo_call this "x" 5 Hquiet Hnodup)|].
  reflexivity.
Defined.

(** X11.  When no callback of the event throws, [emit] writes nothing to
    the console, whatever the callbacks do to the bus. *)
Theorem emit_silent_without_throw {Payload Err : Type}
    (call : listener → Payload → Eventizer → Eventizer * @completion Err)
    (this : Eventizer) (E : string) (P : Payload) :
  (∀ cb b, cb ∈ listeners this E → (call cb P b).2 = Normal) →
  console_error (emit call this E P).1 = [].
Proof.
  intros Hq. rewrite emit_course; simpl. by apply reports_quiet.
Qed.

Lemma emit_silent_without_throw_witness :
  let this := (on (on new_Eventizer "x" 9%nat).1 "x" 2%nat).1 in
  (∀ cb b, cb ∈ listeners this "x" → (demo_call cb 5 b).2 = Normal)
  ∧ console_error (emit demo_call this "x" 5).1 = [].
Proof.
  intros this.
  assert (Hq : ∀ cb b, cb ∈ listeners this "x" → (demo_call cb 5 b).2 = Normal).
  { intros cb b Hin. vm_compute in Hin.
    apply elem_of_cons in Hin as [->|Hin]; [reflexivity|].
    apply list_elem_of_singleton in Hin as ->. reflexivity. }
  split; [exact Hq | exact (emit_silent_without_throw demo_call this "x" 5 Hq)].
Defined.

(** X12.  When each callback of the event keeps the invariant of the bus,
    so does the [emit] that calls them. *)
Theorem emit_keeps_invariant {Payload Err : Type}
    (call : listener → Payload → Eventizer → Eventizer * @completion Err)
    (this : Eventizer) (E : string) (P : Payload) :
  (∀ cb b, cb ∈ listeners this E →
     no_empty_entry b → no_empty_entry (call cb P b).1) →
  no_empty_entry this →
  no_empty_entry (bus (emit call this E P).1).
Proof.
  intros Hkeep Hinv. rewrite emit_course; simpl.
  by apply after_calls_invariant.
Qed.

Lemma emit_keeps_invariant_witness :
  let this := (on (on new_Eventizer "x" 9%nat).1 "x" 2%nat).1 in
  no_empty_entry this
  ∧ no_empty_entry (bus (emit demo_call this "x" 5).1).
Proof.
  intros this.
  assert (Hinv : no_empty_entry this).
  { repeat apply no_empty_entry_on. apply no_empty_entry_new. }
  assert (Hkeep : ∀ cb b, cb ∈ listeners this "x" →
            no_empty_entry b → no_empty_entry (demo_call cb 5 b).1).
  { intros cb b Hin Hb. vm_compute in Hin.
    apply elem_of_cons in Hin as [->|Hin].
    - exact (no_empty_entry_off b "x" 9%nat Hb).
    - apply list_elem_of_singleton in Hin as ->. exact Hb. }
  split; [exact Hinv|].
  exact (emit_keeps_invariant demo_call this "x" 5 Hkeep Hinv).
Defined.

(** X14.  After a history of mutating calls on a fresh bus in which no
    [on] was for the name of a member of [Object.prototype], [emit] calls
    exactly the active registrations of the event, in the order in which
    they were made, each with the payload. *)
Theorem emit_calls_active_registrations {Payload Err : Type}
    (call : listener → Payload → Eventizer → Eventizer * @completion Err)
    (ops : list op) (E : string) (P : Payload) :
  Forall subscribes_plain ops →
  invoked (emit call (run ops) E P).1
  = (λ x, (x.2, P)) <$> filter (λ x, x.1 = E) (active_registrations ops).
Proof.
  intros Hplain. rewrite emit_course; simpl. rewrite run_agrees by done.
  unfold registered_for. by rewrite <- list_fmap_compose.
Qed.

Lemma emit_calls_active_registrations_witness :
  let ops := [On "x" 1%nat; On "y" 2%nat; On "x" 3%nat; Off "x" 1%nat] in
  Forall subscribes_plain ops
  ∧ invoked (emit demo_call (run ops) "x" 5).1 = [(3%nat, 5)].
Proof.
  intros ops.
  assert (Hplain : Forall subscribes_plain ops).
  { repeat constructor. }
  split; [exact Hplain|].
  etransitivity;
    [exact (emit_calls_active_registrations demo_call ops "x" 5 Hplain)|].
  reflexivity.
Defined.

(** ** Names inherited from [Object.prototype] *)

(** X15.  When the bus has no own key [E] and [E] is the name of a member
    of [Object.prototype], [on], [off] and [emit] for [E] throw the
    [TypeError] of the runtime and leave the bus as it was, [emit] calls
    nothing and reports nothing, and [subscriberCount] is the [length] of
    the member, [0] when it has none. *)
Theorem inherited_name_behaviour {Payload Err : Type}
    (call : listener → Payload → Eventizer → Eventizer * @completion Err)
    (this : Eventizer) (E : string) (L : listener) (P : Payload)
    (len : option Z) :
  subscribers this !! E = None →
  Object_prototype E = Some len →
  on this E L = (this, inl TypeError)
  ∧ off this E L = (this, Throw TypeError)
  ∧ emit call this E P
    = ({| bus := this; invoked := []; console_error := [] |},
       Throw (inl TypeError))
  ∧ subscriberCount this E = default 0 len.
Proof.
  intros Hn Hlen.
  assert (Hin : inherited_at this E) by (split; [done | by exists len]).
  split; [by apply on_throws|]. split; [by apply off_throws|].
  split; [by apply emit_throws|].
  by rewrite subscriberCount_inherited, Hlen.
Qed.

Lemma inherited_name_behaviour_witness :
  subscribers new_Eventizer !! "hasOwnProperty" = None
  ∧ Object_prototype "hasOwnProperty" = Some (Some 1)
  ∧ on new_Eventizer "hasOwnProperty" 1%nat = (new_Eventizer, inl TypeError)
  ∧ subscriberCount new_Eventizer "hasOwnProperty" = 1.
Proof.
  assert (Hn : subscribers new_Eventizer !! "hasOwnProperty" = None)
    by reflexivity.
  assert (Hlen : Object_prototype "hasOwnProperty" = Some (Some 1))
    by reflexivity.
  pose proof (inherited_name_behaviour demo_call new_Eventizer
                "hasOwnProperty" 1%nat 0 (Some 1) Hn Hlen) as (Hon & _ & _ & Hc).
  split; [exact Hn|]. split; [exact Hlen|]. split; [exact Hon | exact Hc].
Defined.

(** ** The claims about removal, counting and clearing, on the other names *)

(** X16.  In every state, the state after [off(E, L)] has every entry of
    [E] equal to [L] removed and the others kept in their order; it is the
    state before when [E] has no own key; the key of [E] is deleted when no
    entry is left; the other events are untouched.  For an event name that
    is not the name of a member of [Object.prototype] the call returns. *)
Theorem off_removes_every_equal_entry (this : Eventizer) (E : string) (L : listener) :
  listeners (off this E L).1 E = filter (λ cb, cb ≠ L) (listeners this E)
  ∧ (L ∉ listeners (off this E L).1 E)
  ∧ (∀ cb, cb ≠ L → cb ∈ listeners this E → cb ∈ listeners (off this E L).1 E)
  ∧ listeners (off this E L).1 E `sublist_of` listeners this E
  ∧ (∀ E', E' ≠ E →
       subscribers (off this E L).1 !! E' = subscribers this !! E')
  ∧ (subscribers this !! E = None → (off this E L).1 = this)
  ∧ (filter (λ cb, cb ≠ L) (listeners this E) = [] →
       subscribers (off this E L).1 !! E = None)
  ∧ (filter (λ cb, cb ≠ L) (listeners this E) ≠ [] →
       subscribers (off this E L).1 !! E
       = Some (filter (λ cb, cb ≠ L) (listeners this E)))
  ∧ (Object_prototype E = None → (off this E L).2 = Normal).
Proof.
  split; [apply listeners_off_eq|].
  split; [rewrite listeners_off_eq; apply filter_ne_removes|].
  split; [intros cb Hne Hin; rewrite listeners_off_eq; by apply list_elem_of_filter|].
  split; [rewrite listeners_off_eq; apply sublist_filter|].
  split; [intros E'; apply off_lookup_ne|].
  split; [apply off_absent|].
  assert (Hret : Object_prototype E = None → (off this E L).2 = Normal).
  { intros Hplain. by apply off_returns, not_inherited_plain. }
  destruct (subscribers this !! E) as [a|] eqn:Ha.
  - rewrite (off_lookup_eq _ _ _ a Ha), (listeners_lookup _ _ _ Ha).
    split; [by intros ->|]. split; [by destruct (filter _ a) | exact Hret].
  - rewrite off_absent, Ha, listeners_absent by done. done.
Qed.

Lemma off_removes_every_equal_entry_witness :
  let this := (on (on (on new_Eventizer "x" 1%nat).1 "x" 2%nat).1 "x" 1%nat).1 in
  (filter (λ cb, cb ≠ 1%nat) (listeners this "x") ≠ [])
  ∧ subscribers (off this "x" 1%nat).1 !! "x" = Some [2%nat]
  ∧ subscribers (off (off this "x" 1%nat).1 "x" 2%nat).1 !! "x" = None
  ∧ Object_prototype "x" = None
  ∧ (off this "x" 1%nat).2 = Normal.
Proof.
  intros this.
  assert (H : filter (λ cb, cb ≠ 1%nat) (listeners this "x") ≠ [])
    by (vm_compute; discriminate).
  assert (Hplain : Object_prototype "x" = None) by reflexivity.
  pose proof (off_removes_every_equal_entry this "x" 1%nat)
    as (_ & _ & _ & _ & _ & _ & _ & Hsome & Hret).
  pose proof (off_removes_every_equal_entry (off this "x" 1%nat).1 "x" 2%nat)
    as (_ & _ & _ & _ & _ & _ & Hnone & _).
  split; [exact H|].
  split; [etransitivity; [exact (Hsome H) | reflexivity]|].
  split; [apply Hnone; reflexivity|].
  split; [exact Hplain | exact (Hret Hplain)].
Defined.

(** X17.  After a history of mutating calls on a fresh bus in which no
    [on] was for the name of a member of [Object.prototype], and for an
    event name that is not such a name either, [subscriberCount] is the
    number of active registrations of the event, and [0] when there is
    none.  In every state and for every name, [subscriberCount] is at
    least [0]. *)
Theorem subscriberCount_counts_active (ops : list op) (E : string) :
  Forall subscribes_plain ops →
  Object_prototype E = None →
  subscriberCount (run ops) E
  = Z.of_nat (length (filter (λ x, x.1 = E) (active_registrations ops)))
  ∧ (filter (λ x, x.1 = E) (active_registrations ops) = [] →
       subscriberCount (run ops) E = 0)
  ∧ (∀ this E', 0 ≤ subscriberCount this E')
  ∧ (∀ this, subscribers this !! E = None → subscriberCount this E = 0).
Proof.
  intros Hhist Hplain.
  assert (Hc : subscriberCount (run ops) E
               = Z.of_nat (length (filter (λ x, x.1 = E) (active_registrations ops)))).
  { rewrite subscriberCount_length, run_agrees
      by (done || by apply not_inherited_plain).
    unfold registered_for. by rewrite length_fmap. }
  split; [exact Hc|].
  split; [intros Hnil; by rewrite Hc, Hnil|].
  split; [intros this E'; apply subscriberCount_nonneg|].
  intros this Hnone.
  by rewrite subscriberCount_length, listeners_absent
    by (done || by apply not_inherited_plain).
Qed.

Lemma subscriberCount_counts_active_witness :
  let ops := [On "x" 1%nat; On "y" 2%nat; On "x" 3%nat; Off "x" 1%nat] in
  Forall subscribes_plain ops
  ∧ Object_prototype "x" = None
  ∧ subscriberCount (run ops) "x" = 1.
Proof.
  intros ops.
  assert (Hhist : Forall subscribes_plain ops) by repeat constructor.
  assert (Hplain : Object_prototype "x" = None) by reflexivity.
  split; [exact Hhist|]. split; [exact Hplain|].
  etransitivity;
    [exact (proj1 (subscriberCount_counts_active ops "x" Hhist Hplain))|].
  reflexivity.
Defined.

(** X18.  After [clearEvent(E)] an [emit(E, P)] calls nothing, the entries
    of the other events are unchanged, and [clearEvent(E)] changes nothing
    when [E] has no own key; the count of [E] is then [0] when [E] is not
    the name of a member of [Object.prototype], as is the count of every
    such name after [clearAll()]. *)
Theorem clear_semantics {Payload Err : Type}
    (call : listener → Payload → Eventizer → Eventizer * @completion Err)
    (this : Eventizer) (E : string) (P : Payload) :
  invoked (emit call (clearEvent this E) E P).1 = []
  ∧ (∀ E', E' ≠ E →
       subscribers (clearEvent this E) !! E' = subscribers this !! E')
  ∧ (subscribers this !! E = None → clearEvent this E = this)
  ∧ (Object_prototype E = None → subscriberCount (clearEvent this E) E = 0)
  ∧ (∀ E', Object_prototype E' = None → subscriberCount (clearAll this) E' = 0).
Proof.
  split; [by rewrite emit_course, listeners_clearEvent_eq|].
  split; [intros E'; apply clearEvent_lookup_ne|].
  split; [|split].
  - intros Hnone. apply Eventizer_eq. unfold clearEvent; simpl.
    by apply delete_id.
  - intros Hplain.
    by rewrite subscriberCount_length, listeners_clearEvent_eq
      by by apply not_inherited_plain.
  - intros E' Hplain.
    by rewrite subscriberCount_length, listeners_clearAll
      by by apply not_inherited_plain.
Qed.

Lemma clear_semantics_witness :
  let this := (on (on new_Eventizer "x" 1%nat).1 "y" 2%nat).1 in
  "y" ≠ "x"
  ∧ subscribers (clearEvent this "x") !! "y" = Some [2%nat]
  ∧ Object_prototype "x" = None
  ∧ subscriberCount (clearEvent this "x") "x" = 0
  ∧ subscriberCount (clearAll this) "x" = 0.
Proof.
  intros this.
  pose proof (clear_semantics demo_call this "x" 0)
    as (_ & Hother & _ & Hzero & Hall).
  assert (Hne : "y" ≠ "x") by discriminate.
  assert (Hplain : Object_prototype "x" = None) by reflexivity.
  split; [exact Hne|].
  split; [etransitivity; [exact (Hother "y" Hne) | reflexivity]|].
  split; [exact Hplain|].
  split; [exact (Hzero Hplain) | exact (Hall "x" Hplain)].
Defined.
